(** * The HIP kernel suite of the rocsparse backend (hipKernels.cpp)

    A shallow embedding of the device kernels and of their host launchers
    [HipKernels::vmul], [full_to_pressure_restriction],
    [add_coarse_pressure_correction], [prolongate_vector], [residual] and
    [spmv].

    Conventions of the embedding.
    - A device array of [double] is a [list Z]: the values are finite and
      the arithmetic is exact, no rounding.  Small integers are exact in
      binary64 as well, so the concrete runs below are also runs of the
      floating-point program.  [vmul_k], of which the specification states
      a law that turns on infinities and NaN, is written over any element
      type that has an addition and a multiplication; [Z] is one instance,
      [double], which adds the special values of binary64, another.
    - Sizes, indices and the entries of the index arrays ([cols], [rows])
      are naturals: all of them are taken in the range where the 32-bit
      arithmetic of the kernels does not wrap.  The index of [vmul_k] is
      the exception: it is a signed [int], which the launcher itself drives
      out of its range, and is modelled with its wrap-around.
    - An access outside an array is undefined behaviour in the source; here
      it makes the kernel return [None], and so does a loop that does not
      end (the loops run on fuel).  The arrays passed to one call are
      distinct objects (no aliasing).
    - A launch [<<<dim3(gridDim), dim3(blockDim)>>>] starts [gridDim]
      work-groups of [blockDim] threads.  Threads of the element-wise
      kernels are run one after the other in the order of their global id.
      In the scalar reduction kernels every access to the shared array is
      followed by a barrier, and the threads of a work-group advance in
      lockstep, statement by statement; so do the lanes of one warp of the
      blocked kernel.  Two warps of one work-group of the blocked kernel
      that store to the same slot of the shared array with no barrier in
      between race; the race is given no meaning ([None]).
    - The timers and the log lines of the launchers and the device status
      returned by [hipStreamSynchronize] are left out. *)

From Stdlib Require Import ZArith Lia.
From stdpp Require Import base option list strings.

Set Default Proof Using "Type".

(** ** Arrays and sequencing *)

Abbreviation vec := (list Z).

(** [a.[i]] is the content of slot [i], for use where [i] is known to be in
    range (elsewhere it is a fixed default value, on which nothing relies). *)
Notation "a .[ i ]" := (a !!! i%nat)
  (at level 1, i at level 200, left associativity, format "a .[ i ]").

(** Runs [f] over the elements of [l] from left to right, threading the
    state and stopping at the first undefined step. *)
Fixpoint foldM {A M : Type} (f : A → M → option M) (l : list A) (m : M) : option M :=
  match l with
  | [] => Some m
  | a :: l' => m' ← f a m; foldM f l' m'
  end.

(** [while (idx < N) { body(idx); idx += stride; }].  The fuel bounds the
    number of iterations; running out of it gives [None]. *)
Fixpoint while_lt {M : Type} (fuel : nat) (body : nat → M → option M)
    (N stride idx : nat) (m : M) : option M :=
  if idx <? N then
    match fuel with
    | 0 => None
    | S fuel' => m' ← body idx m; while_lt fuel' body N stride (idx + stride) m'
    end
  else Some m.

(** The values [idx] takes in the body of the loop above. *)
Fixpoint stride_trace (fuel N stride idx : nat) : list nat :=
  if idx <? N then
    match fuel with
    | 0 => []
    | S fuel' => idx :: stride_trace fuel' N stride (idx + stride)
    end
  else [].

(** The threads of a launch, as pairs [(blockIdx.x, threadIdx.x)], in the
    order of their global id. *)
Definition grid (gridDim blockDim : nat) : list (nat * nat) :=
  b ← seq 0 gridDim; t ← seq 0 blockDim; [(b, t)].

(** A kernel whose threads do not synchronise: every thread runs to its end
    before the next one starts. *)
Definition launch {M : Type} (gridDim blockDim : nat)
    (thread : nat → nat → M → option M) (m : M) : option M :=
  foldM (λ bt, thread bt.1 bt.2) (grid gridDim blockDim) m.

(** Modelled from the spec: [Accelerator::ceilDivision] is declared in
    [Misc.hpp], which is not among the sources; it is the quotient [A / B]
    rounded up, which is what lets the launchers cover all [N] indices. *)
Definition ceilDivision (A B : nat) : nat :=
  A / B + (if 0 <? A mod B then 1 else 0).

(** What a launcher leaves behind: a normal return with the output vector,
    the [std::logic_error] of [OPM_THROW] with the text handed to the macro
    and the output vector as it is at that point, or undefined behaviour. *)
Inductive outcome (D : Type) : Type :=
  | Done (out : list D)
  | Thrown (msg : string) (out : list D)
  | Undefined.
Arguments Done {D} out.
Arguments Thrown {D} msg out.
Arguments Undefined {D}.

Definition finish {D : Type} (r : option (list D)) : outcome D :=
  match r with
  | Some out => Done out
  | None => Undefined
  end.

(** [a[i] = v] *)
Definition store {D : Type} (a : list D) (i : nat) (v : D) : option (list D) :=
  if decide (i < length a) then Some (<[i := v]> a) else None.

(** [a[i] = f(a[i])] *)
Definition update_at {D : Type} (i : nat) (f : D → D) (a : list D) : option (list D) :=
  o ← a !! i; store a i (f o).

(** ** Element arithmetic

    The [+] and [*] of the element type of [vmul_k]. *)
Class Arith (D : Type) : Type := {
  fadd : D → D → D;
  fmul : D → D → D
}.

(** Finite values with exact arithmetic, as in the other kernels. *)
#[export] Instance Z_arith : Arith Z := {| fadd := Z.add; fmul := Z.mul |}.

(** The values of binary64 with its infinities and NaN.  The finite values
    are kept exact (no rounding, no overflow) and the sign of zero is left
    out; on the special values [+] and [*] follow IEEE 754. *)
Inductive double : Type :=
  | Finite (z : Z)
  | Inf (negative : bool)
  | NaN.

Definition double_add (a b : double) : double :=
  match a, b with
  | NaN, _ | _, NaN => NaN
  | Finite x, Finite y => Finite (x + y)
  | Inf s, Finite _ | Finite _, Inf s => Inf s
  | Inf s, Inf s' => if bool_decide (s = s') then Inf s else NaN
  end.

Definition double_mul (a b : double) : double :=
  match a, b with
  | NaN, _ | _, NaN => NaN
  | Finite x, Finite y => Finite (x * y)
  | Inf s, Finite y | Finite y, Inf s =>
      if (y =? 0)%Z then NaN else Inf (xorb s (y <? 0)%Z)
  | Inf s, Inf s' => Inf (xorb s s')
  end.

#[export] Instance double_arith : Arith double :=
  {| fadd := double_add; fmul := double_mul |}.

Definition is_finite (v : double) : Prop :=
  match v with Finite _ => True | _ => False end.

(** ** The signed index of [vmul_k]

    [to_int z] is the [int] that the [unsigned int] of value [z mod 2^32]
    converts to. *)
Definition to_int (z : Z) : Z := ((z + 2 ^ 31) mod 2 ^ 32 - 2 ^ 31)%Z.

(** [while (idx < N) { body(idx); idx += stride; }] for [int idx], [int N]
    and an [unsigned int stride]: the sum is formed in [unsigned int] and
    converted back.  A negative [idx] passes the test, and the body then
    indexes its arrays below their first element. *)
Fixpoint while_int {M : Type} (fuel : nat) (body : nat → M → option M)
    (N stride idx : Z) (m : M) : option M :=
  if (idx <? N)%Z then
    match fuel with
    | 0 => None
    | S fuel' =>
        if (idx <? 0)%Z then None
        else m' ← body (Z.to_nat idx) m;
             while_int fuel' body N stride (to_int (idx + stride)) m'
    end
  else Some m.

(** ** Dense vector kernel: [vmul_k] and [HipKernels::vmul] *)

Definition vmul_body {D : Type} `{Arith D} (alpha : D) (in1 in2 : list D) (idx : nat)
    (out : list D) : option (list D) :=
  a ← in1 !! idx; b ← in2 !! idx; o ← out !! idx;
  store out idx (fadd o (fmul (fmul alpha a) b)).
Arguments vmul_body {D _} alpha%_Z in1 in2 idx out.

(** [int idx = blockDim.x * blockIdx.x + threadIdx.x;] converts the unsigned
    global id to [int]. *)
Definition vmul_thread {D : Type} `{Arith D} (gridDim blockDim : nat) (alpha : D)
    (in1 in2 : list D) (N : nat) (blockIdx threadIdx : nat) (out : list D) : option (list D) :=
  let NUM_THREADS := Z.of_nat gridDim in
  let idx := to_int (Z.of_nat (blockDim * blockIdx + threadIdx)) in
  while_int N (vmul_body alpha in1 in2) (Z.of_nat N) NUM_THREADS idx out.
Arguments vmul_thread {D _} gridDim blockDim alpha%_Z in1 in2 N blockIdx threadIdx out.

Definition vmul_k {D : Type} `{Arith D} (gridDim blockDim : nat) (alpha : D)
    (in1 in2 out : list D) (N : nat) : option (list D) :=
  launch gridDim blockDim (vmul_thread gridDim blockDim alpha in1 in2 N) out.
Arguments vmul_k {D _} gridDim blockDim alpha%_Z in1 in2 out N.

(** [hip] is the compile-time switch [__HIP__]. *)
Definition vmul {D : Type} `{Arith D} (hip : bool) (alpha : D) (in1 in2 out : list D)
    (N : nat) : outcome D :=
  if hip then
    let blockDim := 64 in
    let blocks := ceilDivision N blockDim in
    let gridDim := blocks * blockDim in
    finish (vmul_k gridDim blockDim alpha in1 in2 out N)
  else
    Thrown "Error vmul for rocsparse only supported when compiling with hipcc" out.
Arguments vmul {D _} hip alpha%_Z in1 in2 out N.

(** ** Two-level transfer kernels *)

(** [const unsigned int block_size = 3;] of [full_to_pressure_restriction_k]
    and of [add_coarse_pressure_correction_k]. *)
Definition block_size : nat := 3.

Definition restriction_body (fine_y weights : vec) (target_block_row : nat)
    (coarse_y : vec) : option vec :=
  let idx := block_size * target_block_row in
  sum ← foldM (λ i sum, f ← fine_y !! (idx + i); w ← weights !! (idx + i);
                         Some (sum + f * w)%Z) (seq 0 block_size) 0%Z;
  store coarse_y target_block_row sum.

Definition full_to_pressure_restriction_k (gridDim blockDim : nat)
    (fine_y weights coarse_y : vec) (Nb : nat) : option vec :=
  launch gridDim blockDim (λ blockIdx threadIdx,
    let NUM_THREADS := gridDim in
    let target_block_row := blockDim * blockIdx + threadIdx in
    while_lt Nb (restriction_body fine_y weights) Nb NUM_THREADS target_block_row) coarse_y.

Definition full_to_pressure_restriction (hip : bool) (fine_y weights coarse_y : vec)
    (Nb : nat) : outcome Z :=
  if hip then
    let blockDim := 64 in
    let blocks := ceilDivision Nb blockDim in
    let gridDim := blocks * blockDim in
    finish (full_to_pressure_restriction_k gridDim blockDim fine_y weights coarse_y Nb)
  else
    Thrown "Error full_to_pressure_restriction for rocsparse only supported when compiling with hipcc"
      coarse_y.

Definition correction_body (coarse_x : vec) (pressure_idx target_block_row : nat)
    (fine_x : vec) : option vec :=
  c ← coarse_x !! target_block_row;
  o ← fine_x !! (target_block_row * block_size + pressure_idx);
  store fine_x (target_block_row * block_size + pressure_idx) (o + c)%Z.

Definition add_coarse_pressure_correction_k (gridDim blockDim : nat)
    (coarse_x fine_x : vec) (pressure_idx Nb : nat) : option vec :=
  launch gridDim blockDim (λ blockIdx threadIdx,
    let NUM_THREADS := gridDim in
    let target_block_row := blockDim * blockIdx + threadIdx in
    while_lt Nb (correction_body coarse_x pressure_idx) Nb NUM_THREADS target_block_row) fine_x.

Definition add_coarse_pressure_correction (hip : bool) (coarse_x fine_x : vec)
    (pressure_idx Nb : nat) : outcome Z :=
  if hip then
    let blockDim := 64 in
    let blocks := ceilDivision Nb blockDim in
    let gridDim := blocks * blockDim in
    finish (add_coarse_pressure_correction_k gridDim blockDim coarse_x fine_x pressure_idx Nb)
  else
    Thrown "Error add_coarse_pressure_correction for rocsparse only supported when compiling with hipcc"
      fine_x.

Definition prolongate_body (in_ : vec) (cols : list nat) (row : nat) (out : vec) : option vec :=
  c ← cols !! row; v ← in_ !! c; o ← out !! row;
  store out row (o + v)%Z.

Definition prolongate_vector_k (gridDim blockDim : nat) (in_ out : vec) (cols : list nat)
    (N : nat) : option vec :=
  launch gridDim blockDim (λ blockIdx threadIdx,
    let NUM_THREADS := gridDim in
    let row := blockDim * blockIdx + threadIdx in
    while_lt N (prolongate_body in_ cols) N NUM_THREADS row) out.

Definition prolongate_vector (hip : bool) (in_ out : vec) (cols : list nat) (N : nat) : outcome Z :=
  if hip then
    let blockDim := 64 in
    let blocks := ceilDivision N blockDim in
    let gridDim := blocks * blockDim in
    finish (prolongate_vector_k gridDim blockDim in_ out cols N)
  else
    Thrown "Error prolongate_vector for rocsparse only supported when compiling with hipcc" out.

(** The indices claimed by the threads of a grid-stride kernel launched over
    [N] indices, thread after thread. *)
Definition claimed (gridDim blockDim N : nat) : list nat :=
  bt ← grid gridDim blockDim; stride_trace N N gridDim (blockDim * bt.1 + bt.2).

(** ** Scalar sparse kernels: [spmv_k] and [residual_k]

    One work-group of [bsize] threads per row.  [tmp] is the work-group's
    shared array, one slot per thread. *)

(** One turn of [for (j = rowStart + idx_t; j < rowEnd; j += bsize)]. *)
Definition row_entry (vals : vec) (cols : list nat) (x : vec) (j : nat)
    (local_sum : Z) : option Z :=
  col ← cols !! j; v ← vals !! j; xc ← x !! col;
  Some (local_sum + v * xc)%Z.

Definition local_sum_of (vals : vec) (cols : list nat) (x : vec)
    (rowStart rowEnd bsize idx_t : nat) : option Z :=
  while_lt (rowEnd - rowStart) (row_entry vals cols x) rowEnd bsize (rowStart + idx_t) 0%Z.

(** [if (idx_t < offset) tmp[idx_t] += tmp[idx_t + offset]; __syncthreads();]
    for all threads of the work-group at once: the operands are read from
    the array as it is before the step. *)
Definition halve_step (bsize offset : nat) (tmp : vec) : option vec :=
  foldM (λ idx_t tmp',
           if idx_t <? offset
           then a ← tmp !! idx_t; b ← tmp !! (idx_t + offset); store tmp' idx_t (a + b)%Z
           else Some tmp') (seq 0 bsize) tmp.

(** [while (offset > 0) { ...; offset = offset / 2; }] *)
Fixpoint halve_reduce (fuel bsize offset : nat) (tmp : vec) : option vec :=
  if 0 <? offset then
    match fuel with
    | 0 => None
    | S fuel' => tmp' ← halve_step bsize offset tmp; halve_reduce fuel' bsize (offset / 2) tmp'
    end
  else Some tmp.

(** The value of [tmp[0]] that thread 0 finds after the reduction of [row]. *)
Definition reduced_row (vals : vec) (cols rows : list nat) (x : vec)
    (bsize row : nat) : option Z :=
  rowStart ← rows !! row;
  rowEnd ← rows !! (row + 1);
  tmp ← mapM (local_sum_of vals cols x rowStart rowEnd bsize) (seq 0 bsize);
  tmp ← halve_reduce bsize bsize (bsize / 2) tmp;
  tmp !! 0.

Definition spmv_row (vals : vec) (cols rows : list nat) (x : vec) (bsize row : nat)
    (out : vec) : option vec :=
  t ← reduced_row vals cols rows x bsize row;
  store out row t.

Definition residual_row (vals : vec) (cols rows : list nat) (x rhs : vec) (bsize row : nat)
    (out : vec) : option vec :=
  t ← reduced_row vals cols rows x bsize row;
  r ← rhs !! row;
  store out row (r - t)%Z.

(** The work-group [blockIdx]: [idx_b = gid / bsize = blockIdx.x], and the
    stride is [num_workgroups = gridDim.x]. *)
Definition spmv_k (gridDim blockDim : nat) (vals : vec) (cols rows : list nat) (N : nat)
    (x out : vec) : option vec :=
  let bsize := blockDim in
  let num_workgroups := gridDim in
  foldM (λ idx_b, while_lt N (spmv_row vals cols rows x bsize) N num_workgroups idx_b)
        (seq 0 gridDim) out.

Definition residual_k (gridDim blockDim : nat) (vals : vec) (cols rows : list nat) (N : nat)
    (x rhs out : vec) : option vec :=
  let bsize := blockDim in
  let num_workgroups := gridDim in
  foldM (λ idx_b, while_lt N (residual_row vals cols rows x rhs bsize) N num_workgroups idx_b)
        (seq 0 gridDim) out.

(** [block_size] is a parameter of the launcher that the kernel never sees
    ("block_size not used since I use this kernel only for block sizes 1"). *)
Definition spmv (hip : bool) (vals : vec) (cols rows : list nat) (x y : vec)
    (Nb block_size : nat) : outcome Z :=
  if hip then
    let blockDim := 64 in
    let num_work_groups := ceilDivision Nb blockDim in
    let gridDim := num_work_groups * blockDim in
    finish (spmv_k gridDim blockDim vals cols rows Nb x y)
  else
    Thrown "Error spmv for rocsparse only supported when compiling with hipcc" y.

(** ** Blocked residual kernel: [residual_blocked_k]

    One warp per block row; lane [lane] owns the entry [(r, c)] of the
    blocks [first_block + lane / (bs*bs)], then every
    [num_blocks_per_warp]-th one. *)

Definition offsetTarget (warpsize : nat) : nat := if warpsize =? 64 then 48 else 32.

Definition block_entry (vals : vec) (cols : list nat) (x : vec) (bs c r block : nat)
    (local_out : Z) : option Z :=
  col ← cols !! block;
  x_elem ← x !! (col * bs + c);
  A_elem ← vals !! (block * bs * bs + c + r * bs);
  Some (local_out + x_elem * A_elem)%Z.

Definition local_out_of (vals : vec) (cols : list nat) (x : vec)
    (bs warpsize first_block last_block lane : nat) : option Z :=
  let num_active_threads := warpsize / bs / bs * bs * bs in
  let num_blocks_per_warp := warpsize / bs / bs in
  let c := (lane / bs) mod bs in
  let r := lane mod bs in
  let block := first_block + lane / (bs * bs) in
  if lane <? num_active_threads then
    while_lt (last_block - first_block) (block_entry vals cols x bs c r)
             last_block num_blocks_per_warp block 0%Z
  else Some 0%Z.

(** [if (lane + offset < warpsize) tmp[lane] += tmp[lane + offset];] for all
    lanes of the warp at once. *)
Definition shift_step (warpsize offset : nat) (tmp : vec) : option vec :=
  foldM (λ lane tmp',
           if lane + offset <? warpsize
           then a ← tmp !! lane; b ← tmp !! (lane + offset); store tmp' lane (a + b)%Z
           else Some tmp') (seq 0 warpsize) tmp.

(** [for (offset = 3; offset <= offsetTarget; offset <<= 1)], entered with
    the current [offset]. *)
Fixpoint shift_reduce (fuel warpsize offset : nat) (tmp : vec) : option vec :=
  if offset <=? offsetTarget warpsize then
    match fuel with
    | 0 => None
    | S fuel' => tmp' ← shift_step warpsize offset tmp;
                 shift_reduce fuel' warpsize (2 * offset) tmp'
    end
  else Some tmp.

(** [if (lane < bs) out[target_block_row*bs + lane] = rhs[...] - tmp[lane];] *)
Definition write_block_row (rhs tmp : vec) (bs warpsize target_block_row : nat)
    (out : vec) : option vec :=
  foldM (λ lane out',
           if lane <? bs
           then let row := target_block_row * bs + lane in
                r ← rhs !! row; t ← tmp !! lane; store out' row (r - t)%Z
           else Some out') (seq 0 warpsize) out.

Definition residual_blocked_row (vals : vec) (cols rows : list nat) (x rhs : vec)
    (bs warpsize target_block_row : nat) (out : vec) : option vec :=
  first_block ← rows !! target_block_row;
  last_block ← rows !! (target_block_row + 1);
  tmp ← mapM (local_out_of vals cols x bs warpsize first_block last_block) (seq 0 warpsize);
  tmp ← shift_reduce (offsetTarget warpsize) warpsize 3 tmp;
  write_block_row rhs tmp bs warpsize target_block_row out.

(** The work-group [blockIdx] of a launch whose work-groups are made of
    whole warps ([blockDim.x] a multiple of [warpSize], as the launcher's 64
    threads are on the widths 32 and 64); other shapes are given no meaning.
    Warp [w] of the group starts at the block row
    [idx / warpsize = blockDim * blockIdx / warpsize + w] and enters the loop
    when that row is below [Nb]; the warps that do not enter have left the
    kernel.  The shared array is indexed by lane, so all warps of the group
    use the slots [tmp[0 .. warpsize-1]]: a warp that enters alone has them
    to itself, two warps that enter both store to [tmp[lane]] with no
    barrier in between. *)
Definition residual_blocked_group (gridDim blockDim warpsize : nat) (vals : vec)
    (cols rows : list nat) (Nb : nat) (x rhs : vec) (bs blockIdx : nat) (out : vec) : option vec :=
  let NUM_THREADS := gridDim in
  let num_warps_in_grid := NUM_THREADS / warpsize in
  if decide (0 < warpsize ∧ blockDim mod warpsize = 0) then
    let first_warp := blockDim * blockIdx / warpsize in
    match filter (λ w, first_warp + w < Nb) (seq 0 (blockDim / warpsize)) with
    | [] => Some out
    | [w] => while_lt Nb (residual_blocked_row vals cols rows x rhs bs warpsize)
                      Nb num_warps_in_grid (first_warp + w) out
    | _ => None
    end
  else None.

Definition residual_blocked_k (gridDim blockDim warpsize : nat) (vals : vec)
    (cols rows : list nat) (Nb : nat) (x rhs out : vec) (block_size : nat) : option vec :=
  let bs := block_size in
  foldM (residual_blocked_group gridDim blockDim warpsize vals cols rows Nb x rhs bs)
        (seq 0 gridDim) out.

(** [warpsize] is the device constant [warpSize] that the blocked kernel
    reads. *)
Definition residual (hip : bool) (warpsize : nat) (vals : vec) (cols rows : list nat)
    (x rhs out : vec) (Nb block_size : nat) : outcome Z :=
  if hip then
    let blockDim := 64 in
    let num_work_groups := ceilDivision Nb blockDim in
    let gridDim := num_work_groups * blockDim in
    if 1 <? block_size
    then finish (residual_blocked_k gridDim blockDim warpsize vals cols rows Nb x rhs out block_size)
    else finish (residual_k gridDim blockDim vals cols rows Nb x rhs out)
  else
    Thrown "Error residual for rocsparse only supported when compiling with hipcc" out.

(** ** Reference computations *)

Definition sum_over (l : list nat) (f : nat → Z) : Z :=
  foldr (λ j acc, (f j + acc)%Z) 0%Z l.

(** The sum of [f j] for [s <= j < e]. *)
Definition sum_range (s e : nat) (f : nat → Z) : Z := sum_over (seq s (e - s)) f.


(** The share of the entry [(r, c)] of the stored block [block] in the scalar
    row [r] of its block row. *)
Definition block_term (bs : nat) (vals : vec) (cols : list nat) (x : vec)
    (r c block : nat) : Z :=
  (vals.[block * bs * bs + r * bs + c] * x.[cols.[block] * bs + c])%Z.

(** The scalar row [i = row*bs + r] of the block matrix-vector product, read
    off a block-compressed-row matrix with blocks stored row-major. *)
Definition bsr_product (bs : nat) (vals : vec) (cols rows : list nat) (x : vec) (i : nat) : Z :=
  let row := i / bs in
  let r := i mod bs in
  sum_range rows.[row] rows.[row + 1] (λ block,
    sum_range 0 bs (λ c, block_term bs vals cols x r c block)).

(** The sum of the slots [lane], [lane + 3], [lane + 6], ... of [tmp]: of the
    first [m] of them, as far as they lie in the warp. *)
Definition lane_sum (warpsize : nat) (tmp : vec) (m lane : nat) : Z :=
  sum_range 0 m (λ k, if lane + 3 * k <? warpsize then tmp.[lane + 3 * k] else 0%Z).

(** What a lane of a warp on 3x3 blocks accumulates, in terms of the sums
    [T q c r] over the blocks number [q], [q + warpsize/9], ... of the row. *)
Definition lane_value (warpsize : nat) (T : nat → nat → nat → Z) (lane : nat) : Z :=
  if lane <? warpsize / 3 / 3 * 3 * 3 then T (lane / 9) ((lane / 3) mod 3) (lane mod 3) else 0%Z.

(** The block-compressed-row structure of the data model, for [Nb] block rows
    and as many block columns. *)
Record bsr_matrix (bs Nb : nat) (vals : vec) (cols rows : list nat) : Prop := {
  bsr_rows_length : length rows = Nb + 1;
  bsr_rows_mono : ∀ i j a b, i ≤ j → rows !! i = Some a → rows !! j = Some b → a ≤ b;
  bsr_rows_last : rows !! Nb = Some (length cols);
  bsr_vals_length : length vals = length cols * bs * bs;
  bsr_cols_range : Forall (λ c, c < Nb) cols
}.



(** ** Execution context: [HipKernels::init]

    The static members [verbosity] and [initialized] of [HipKernels], and the
    lines handed to [OpmLog::debug]. *)
Record hip_context : Type := {
  verbosity : Z;
  initialized : bool;
  debug_log : list string
}.

Definition init (verbosity_ : Z) (ctx : hip_context) : hip_context :=
  if initialized ctx then
    {| verbosity := verbosity ctx;
       initialized := initialized ctx;
       debug_log := debug_log ctx ++ ["Warning HipKernels is already initialized"] |}
  else
    {| verbosity := verbosity_;
       initialized := true;
       debug_log := debug_log ctx |}.

(** [m'] has the length of [m] and the content of [m] in every slot that
    satisfies [keep]. *)
Definition same_outside (keep : nat → Prop) (m m' : vec) : Prop :=
  length m' = length m ∧ ∀ i, keep i → m' !! i = m !! i.

(** * Properties *)

Example vmul_run : vmul true 2 [1; 2; 3]%Z [4; 5; 6]%Z [10; 20; 30]%Z 3 = Done [18; 40; 66]%Z.
Proof. vm_compute. reflexivity. Qed.

(** ** Sequencing lemmas *)

Lemma foldM_app {A M} (f : A → M → option M) (l1 l2 : list A) (m : M) :
  foldM f (l1 ++ l2) m = foldM f l1 m ≫= foldM f l2.
Proof.
  revert m. induction l1 as [|a l1 IH]; intros m; simpl; [done|].
  destruct (f a m) as [m'|]; simpl; [apply IH|done].
Qed.

Lemma foldM_ext {A M} (f g : A → M → option M) (l : list A) (m : M) :
  (∀ a m', a ∈ l → f a m' = g a m') → foldM f l m = foldM g l m.
Proof.
  revert m. induction l as [|a l IH]; intros m Hfg; simpl; [done|].
  rewrite Hfg by left. destruct (g a m) as [m'|]; simpl; [|done].
  apply IH. intros b m'' Hb. apply Hfg. by right.
Qed.

Lemma foldM_fmap {A B M} (f : B → M → option M) (g : A → B) (l : list A) (m : M) :
  foldM f (g <$> l) m = foldM (λ a, f (g a)) l m.
Proof.
  revert m. induction l as [|a l IH]; intros m; simpl; [done|].
  destruct (f (g a) m) as [m'|]; simpl; [apply IH|done].
Qed.

Lemma foldM_bind {A B M} (f : B → M → option M) (g : A → list B) (l : list A) (m : M) :
  foldM (λ a, foldM f (g a)) l m = foldM f (l ≫= g) m.
Proof.
  revert m. induction l as [|a l IH]; intros m; [done|].
  rewrite bind_cons, foldM_app. cbn [foldM].
  destruct (foldM f (g a) m) as [m'|]; simpl; [apply IH|done].
Qed.

(** A run with a step that fails in every state fails. *)
Lemma foldM_fails {A M} (P : M → Prop) (f : A → M → option M) (l : list A) (a : A) (m : M) :
  (∀ b m0 m1, f b m0 = Some m1 → P m0 → P m1) → P m → a ∈ l →
  (∀ m0, P m0 → f a m0 = None) → foldM f l m = None.
Proof.
  intros Hkeep Hm Ha Hfail. revert m Hm. induction l as [|b l IH]; intros m Hm.
  - by apply elem_of_nil in Ha.
  - cbn [foldM]. apply elem_of_cons in Ha as [<-|Ha].
    + by rewrite Hfail.
    + destruct (f b m) as [m1|] eqn:Hb; [|done]. simpl. apply IH; [done|].
      by apply (Hkeep b m m1).
Qed.

Lemma while_lt_trace {M} (fuel : nat) (body : nat → M → option M) (N stride idx : nat) (m : M) :
  0 < stride → N ≤ idx + fuel →
  while_lt fuel body N stride idx m = foldM body (stride_trace fuel N stride idx) m.
Proof.
  intros Hs. revert idx m. induction fuel as [|fuel IH]; intros idx m Hf; simpl.
  - destruct (Nat.ltb_spec idx N); [lia|done].
  - destruct (Nat.ltb_spec idx N); [|done]. simpl.
    destruct (body idx m) as [m'|]; simpl; [|done]. apply IH. lia.
Qed.

Lemma elem_of_stride_trace (fuel N stride idx r : nat) :
  0 < stride → N ≤ idx + fuel →
  r ∈ stride_trace fuel N stride idx ↔ r < N ∧ ∃ k, r = idx + k * stride.
Proof.
  intros Hs. revert idx. induction fuel as [|fuel IH]; intros idx Hf; simpl.
  - destruct (Nat.ltb_spec idx N); [lia|]. split; [by intros ?%elem_of_nil|].
    intros [? [k ->]]. lia.
  - destruct (Nat.ltb_spec idx N) as [Hlt|Hge].
    + rewrite elem_of_cons, IH by lia. split.
      * intros [->|[? [k ->]]]; [split; [done|exists 0; lia]|].
        split; [done|]. exists (S k). lia.
      * intros [? [k ->]]. destruct k as [|k]; [left; lia|].
        right. split; [done|]. exists k. lia.
    + split; [by intros ?%elem_of_nil|]. intros [? [k ->]]. lia.
Qed.

Lemma stride_trace_once (fuel N stride idx : nat) :
  N ≤ stride → N ≤ idx + fuel →
  stride_trace fuel N stride idx = if idx <? N then [idx] else [].
Proof.
  intros Hs Hf. destruct fuel as [|fuel]; simpl.
  - destruct (Nat.ltb_spec idx N); [lia|done].
  - destruct (Nat.ltb_spec idx N); [|done]. f_equal.
    destruct fuel; simpl; destruct (Nat.ltb_spec (idx + stride) N);
      first [done | exfalso; lia].
Qed.

(** ** The threads of a launch *)

Lemma group_gid {B : Type} (blockDim b s n : nat) (f : nat → list B) :
  (seq s n ≫= λ t, [(b, t)]) ≫= (λ bt, f (blockDim * bt.1 + bt.2))
  = seq (b * blockDim + s) n ≫= f.
Proof.
  revert s. induction n as [|n IH]; intros s; [done|].
  cbn [seq]. rewrite !bind_cons, bind_app, bind_singleton, IH. simpl.
  f_equal; [f_equal; lia|]. f_equal. f_equal. lia.
Qed.

Lemma grid_gid {B : Type} (gridDim blockDim : nat) (f : nat → list B) :
  grid gridDim blockDim ≫= (λ bt, f (blockDim * bt.1 + bt.2)) = seq 0 (gridDim * blockDim) ≫= f.
Proof.
  unfold grid. induction gridDim as [|G IH]; [done|].
  rewrite seq_S, !bind_app, IH.
  replace (S G * blockDim) with (G * blockDim + blockDim) by lia.
  rewrite seq_app, bind_app. f_equal. rewrite bind_singleton, group_gid.
  f_equal. f_equal. lia.
Qed.

Lemma launch_claimed {M} (gridDim blockDim N : nat) (body : nat → M → option M) (m : M) :
  launch gridDim blockDim
    (λ blockIdx threadIdx, while_lt N body N gridDim (blockDim * blockIdx + threadIdx)) m
  = foldM body (claimed gridDim blockDim N) m.
Proof.
  unfold launch, claimed. rewrite <- foldM_bind. apply foldM_ext.
  intros [b t] m' Hbt. simpl. apply while_lt_trace; [|lia].
  unfold grid in Hbt. apply list_elem_of_bind in Hbt as (b1 & Hin & Hb1%elem_of_seq); apply list_elem_of_bind in Hin as (t1 & Hin & _); apply list_elem_of_singleton in Hin; simplify_eq. lia.
Qed.

Lemma seq_bind_below (N n : nat) :
  seq 0 n ≫= (λ g, if g <? N then [g] else []) = seq 0 (n `min` N).
Proof.
  induction n as [|n IH]; [done|].
  rewrite seq_S, bind_app, IH, bind_singleton. cbn [Nat.add].
  destruct (Nat.ltb_spec n N).
  - replace (S n `min` N) with (S n) by lia. replace (n `min` N) with n by lia.
    by rewrite seq_S.
  - rewrite app_nil_r. f_equal. lia.
Qed.

Lemma claimed_once (gridDim blockDim N : nat) :
  N ≤ gridDim → 0 < blockDim → claimed gridDim blockDim N = seq 0 N.
Proof.
  intros HN HB. unfold claimed.
  rewrite (grid_gid gridDim blockDim (stride_trace N N gridDim)).
  rewrite (list_bind_ext _ (λ g, if g <? N then [g] else []) _ (seq 0 (gridDim * blockDim))); [|  |done].
  - rewrite seq_bind_below. f_equal. nia.
  - intros g. apply stride_trace_once; lia.
Qed.
(** ** Rows claimed by the work-groups *)

Lemma groups_trace {M} (N stride : nat) (start : nat → nat) (body : nat → M → option M)
    (l : list nat) (m : M) :
  (l ≠ [] → 0 < stride) →
  foldM (λ b, while_lt N body N stride (start b)) l m
  = foldM body (l ≫= λ b, stride_trace N N stride (start b)) m.
Proof.
  intros Hs. rewrite <- foldM_bind. apply foldM_ext. intros b m' Hb.
  apply while_lt_trace; [|lia]. apply Hs. intros ->. by apply elem_of_nil in Hb.
Qed.

Lemma elem_of_group_rows (G N stride r : nat) :
  0 < stride → stride ≤ G →
  r ∈ seq 0 G ≫= (λ b, stride_trace N N stride b) ↔ r < N.
Proof.
  intros Hs HG. rewrite list_elem_of_bind. split.
  - intros (b & (Hr & _)%elem_of_stride_trace & _); [done|lia..].
  - intros Hr. exists (r mod stride). split.
    + apply elem_of_stride_trace; [lia..|]. split; [done|]. exists (r / stride).
      pose proof (Nat.div_mod_eq r stride). lia.
    + apply elem_of_seq. pose proof (Nat.mod_upper_bound r stride). lia.
Qed.

(** ** Arrays written slot by slot *)

Lemma store_Some {D} (a : list D) (i : nat) (v : D) :
  i < length a → store a i v = Some (<[i := v]> a).
Proof. intros Hi. unfold store. by rewrite decide_True. Qed.

Lemma elem_of_snoc_l {A} (l : list A) (a b : A) : b ∈ l → b ∈ l ++ [a].
Proof. intros Hb. apply elem_of_app. by left. Qed.

Lemma elem_of_snoc_r {A} (l : list A) (a : A) : a ∈ l ++ [a].
Proof. apply elem_of_app. right. by apply list_elem_of_singleton. Qed.

(** A sequence of read-modify-write steps on distinct slots. *)
Lemma foldM_update {I D : Type} (loc : I → nat) (f : I → D → D) (l : list I) (m : list D) :
  NoDup (loc <$> l) → (∀ i, i ∈ l → loc i < length m) →
  ∃ m', foldM (λ i, update_at (loc i) (f i)) l m = Some m' ∧ length m' = length m ∧
    (∀ i o, i ∈ l → m !! loc i = Some o → m' !! loc i = Some (f i o)) ∧
    (∀ k, k ∉ loc <$> l → m' !! k = m !! k).
Proof.
  induction l as [|a l IH] using rev_ind; intros Hnd Hin.
  { exists m. split_and!; [done|done| |done]. by intros i o ?%elem_of_nil. }
  rewrite fmap_app in Hnd. apply NoDup_app in Hnd as (Hnd & Hnew & _). simpl in Hnew.
  destruct IH as (m1 & Hm1 & Hlen & Hupd & Hsame);
    [done|intros i Hi; by apply Hin, elem_of_snoc_l|].
  assert (loc a ∉ loc <$> l) as Ha by (intros ?; eapply Hnew; [done|left]).
  destruct (lookup_lt_is_Some_2 m (loc a)) as [o Ho]; [apply Hin, elem_of_snoc_r|].
  exists (<[loc a := f a o]> m1). rewrite foldM_app, Hm1. simpl. unfold update_at at 1.
  rewrite (Hsame _ Ha), Ho. simpl.
  rewrite store_Some by (rewrite Hlen; eapply lookup_lt_Some; done).
  split; [done|]. split; [by rewrite length_insert|]. split.
  - intros i o' [Hi| ->%list_elem_of_singleton]%elem_of_app Hio.
    + rewrite list_lookup_insert_ne; [by apply Hupd|].
      intros Heq. apply Ha. rewrite Heq. by apply list_elem_of_fmap_2.
    + rewrite list_lookup_insert_eq by (rewrite Hlen; eapply lookup_lt_Some; done). congruence.
  - intros k Hk. rewrite fmap_app, elem_of_app in Hk.
    rewrite list_lookup_insert_ne.
    + apply Hsame. intros Hkl. apply Hk. by left.
    + intros <-. apply Hk. right. simpl. left.
Qed.

(** A sequence of stores; a slot stored to twice gets the same value. *)
Lemma foldM_store {I D : Type} (loc : I → nat) (v : I → D) (l : list I) (m : list D) :
  (∀ i, i ∈ l → loc i < length m) →
  (∀ i j, i ∈ l → j ∈ l → loc i = loc j → v i = v j) →
  ∃ m', foldM (λ i m, store m (loc i) (v i)) l m = Some m' ∧ length m' = length m ∧
    (∀ i, i ∈ l → m' !! loc i = Some (v i)) ∧
    (∀ k, k ∉ loc <$> l → m' !! k = m !! k).
Proof.
  induction l as [|a l IH] using rev_ind; intros Hin Hv.
  { exists m. split_and!; [done|done| |done]. by intros i ?%elem_of_nil. }
  destruct IH as (m1 & Hm1 & Hlen & Hupd & Hsame).
  { intros i Hi. by apply Hin, elem_of_snoc_l. }
  { intros i j Hi Hj. apply Hv; by apply elem_of_snoc_l. }
  exists (<[loc a := v a]> m1). rewrite foldM_app, Hm1. simpl.
  assert (loc a < length m1) as Hla by (rewrite Hlen; apply Hin, elem_of_snoc_r).
  rewrite store_Some by done.
  split; [done|]. split; [by rewrite length_insert|]. split.
  - intros i Hi. destruct (decide (loc i = loc a)) as [Heq|Hne].
    + rewrite Heq, list_lookup_insert_eq by done. f_equal. symmetry.
      apply Hv; [done|apply elem_of_snoc_r|done].
    + rewrite list_lookup_insert_ne by done. apply Hupd.
      apply elem_of_app in Hi as [Hi| ->%list_elem_of_singleton]; done.
  - intros k Hk. rewrite fmap_app, elem_of_app in Hk.
    rewrite list_lookup_insert_ne.
    + apply Hsame. intros Hkl. apply Hk. by left.
    + intros <-. apply Hk. right. simpl. left.
Qed.

(** ** The launch configuration of the host functions *)

Lemma ceilDivision_covers (A B : nat) : 0 < B → A ≤ ceilDivision A B * B.
Proof.
  intros HB. unfold ceilDivision.
  pose proof (Nat.div_mod_eq A B). pose proof (Nat.mod_upper_bound A B).
  destruct (Nat.ltb_spec 0 (A mod B)); nia.
Qed.

(** ** The signed index of [vmul_k] *)

Lemma to_int_small (z : Z) : (- 2 ^ 31 ≤ z < 2 ^ 31)%Z → to_int z = z.
Proof. intros Hz. unfold to_int. rewrite Z.mod_small; lia. Qed.

(** Where the index stays below [2^31] the loop is the loop over the
    naturals. *)
Lemma while_int_lt {M} (body : nat → M → option M) (N stride : nat) :
  (Z.of_nat N + Z.of_nat stride ≤ 2 ^ 31)%Z →
  ∀ fuel idx m,
    while_int fuel body (Z.of_nat N) (Z.of_nat stride) (Z.of_nat idx) m
    = while_lt fuel body N stride idx m.
Proof.
  intros Hb fuel. induction fuel as [|fuel IH]; intros idx m; cbn [while_int while_lt].
  - destruct (Z.ltb_spec (Z.of_nat idx) (Z.of_nat N)), (Nat.ltb_spec idx N); done || lia.
  - destruct (Z.ltb_spec (Z.of_nat idx) (Z.of_nat N)), (Nat.ltb_spec idx N); try done; try lia.
    destruct (Z.ltb_spec (Z.of_nat idx) 0); [lia|]. rewrite Nat2Z.id.
    destruct (body idx m) as [m'|]; cbn [mbind option_bind]; [|done].
    rewrite to_int_small, <- Nat2Z.inj_add by lia. apply IH.
Qed.


(** A negative index passes the test of the loop, and the body indexes the
    arrays below their first element. *)
Lemma while_int_negative {M} (fuel : nat) (body : nat → M → option M) (N : nat)
    (stride idx : Z) (m : M) :
  (idx < 0)%Z → while_int fuel body (Z.of_nat N) stride idx m = None.
Proof.
  intros Hneg. destruct fuel as [|fuel]; cbn [while_int];
    (destruct (Z.ltb_spec idx (Z.of_nat N)); [|lia]); [done|].
  by destruct (Z.ltb_spec idx 0); [|lia].
Qed.

Lemma elem_of_grid (gridDim blockDim b t : nat) :
  (b, t) ∈ grid gridDim blockDim ↔ b < gridDim ∧ t < blockDim.
Proof.
  unfold grid. rewrite list_elem_of_bind. split.
  - intros (b' & Hin & Hb%elem_of_seq). apply list_elem_of_bind in Hin as (t' & Hin & Ht%elem_of_seq).
    apply list_elem_of_singleton in Hin. simplify_eq. lia.
  - intros [Hb Ht]. exists b. split; [|apply elem_of_seq; lia].
    apply list_elem_of_bind. exists t. split; [by apply list_elem_of_singleton|].
    apply elem_of_seq. lia.
Qed.

(** ** [vmul] *)

(** A launch of at most [2^31] threads whose stride cannot carry an index
    below [N] past [2^31]: no index wraps. *)
Lemma vmul_k_no_wrap {D} `{Arith D} (gridDim blockDim : nat) (alpha : D)
    (in1 in2 out : list D) (N : nat) :
  (Z.of_nat gridDim * Z.of_nat blockDim ≤ 2 ^ 31)%Z →
  (Z.of_nat N + Z.of_nat gridDim ≤ 2 ^ 31)%Z →
  vmul_k gridDim blockDim alpha in1 in2 out N
  = launch gridDim blockDim
      (λ blockIdx threadIdx,
         while_lt N (vmul_body alpha in1 in2) N gridDim (blockDim * blockIdx + threadIdx)) out.
Proof.
  intros HT HS. unfold vmul_k, launch. apply foldM_ext.
  intros [b t] m [Hb Ht]%elem_of_grid. cbn [fst snd]. unfold vmul_thread.
  assert (blockDim * b + t < gridDim * blockDim) by nia.
  rewrite to_int_small by lia. by apply while_int_lt.
Qed.

Lemma vmul_k_seq {D} `{Arith D} (gridDim blockDim : nat) (alpha : D)
    (in1 in2 out : list D) (N : nat) :
  N ≤ gridDim → 0 < blockDim →
  (Z.of_nat gridDim * Z.of_nat blockDim ≤ 2 ^ 31)%Z →
  (Z.of_nat N + Z.of_nat gridDim ≤ 2 ^ 31)%Z →
  vmul_k gridDim blockDim alpha in1 in2 out N = foldM (vmul_body alpha in1 in2) (seq 0 N) out.
Proof.
  intros HG HB HT HS. rewrite vmul_k_no_wrap by done.
  by rewrite (launch_claimed gridDim blockDim N (vmul_body alpha in1 in2)), claimed_once.
Qed.

Lemma ceilDivision_upper (A B : nat) : 0 < B → ceilDivision A B * B < A + B.
Proof.
  intros HB. unfold ceilDivision.
  pose proof (Nat.div_mod_eq A B). pose proof (Nat.mod_upper_bound A B).
  destruct (Nat.ltb_spec 0 (A mod B)); nia.
Qed.

(** Up to [N = 2^25] the launcher starts at most [2^31] threads. *)
Lemma vmul_launch {D} `{Arith D} (alpha : D) (in1 in2 out : list D) (N : nat) :
  (Z.of_nat N ≤ 2 ^ 25)%Z →
  vmul true alpha in1 in2 out N = finish (foldM (vmul_body alpha in1 in2) (seq 0 N) out).
Proof.
  intros HN. unfold vmul.
  pose proof (ceilDivision_covers N 64). pose proof (ceilDivision_upper N 64).
  rewrite vmul_k_seq; [done|lia..].
Qed.

(** From [N = 2^25 + 1] on the launcher starts the thread with global id
    [2^31], whose index is [-2^31]. *)
Lemma vmul_index_wraps {D} `{Arith D} (alpha : D) (in1 in2 out : list D) (N : nat) :
  (2 ^ 25 < Z.of_nat N)%Z → vmul true alpha in1 in2 out N = Undefined.
Proof.
  intros HN. unfold vmul, vmul_k, launch.
  pose proof (ceilDivision_covers N 64).
  rewrite (foldM_fails (λ _, True) _ _ (Z.to_nat (2 ^ 25), 0)); [done|done|done| |].
  - apply elem_of_grid. lia.
  - intros m _. cbn [fst snd]. unfold vmul_thread.
    replace (Z.of_nat (64 * Z.to_nat (2 ^ 25) + 0)) with (2 ^ 31)%Z by lia.
    by apply while_int_negative.
Qed.

Lemma vmul_fold {D} `{Arith D} (alpha : D) (in1 in2 out : list D) (N : nat) :
  N ≤ length in1 → N ≤ length in2 → N ≤ length out →
  ∃ out', foldM (vmul_body alpha in1 in2) (seq 0 N) out = Some out' ∧
    length out' = length out ∧
    (∀ i a b o, i < N → in1 !! i = Some a → in2 !! i = Some b → out !! i = Some o →
       out' !! i = Some (fadd o (fmul (fmul alpha a) b))) ∧
    (∀ i, N ≤ i → out' !! i = out !! i).
Proof.
  intros H1 H2 Ho.
  set (f := λ (i : nat) (o : D),
              match in1 !! i, in2 !! i with
              | Some a, Some b => fadd o (fmul (fmul alpha a) b)
              | _, _ => o
              end).
  rewrite (foldM_ext _ (λ i, update_at (id i) (f i))); last first.
  { intros i m Hi%elem_of_seq. unfold vmul_body, update_at, f, id.
    destruct (lookup_lt_is_Some_2 in1 i) as [a ->]; [lia|].
    by destruct (lookup_lt_is_Some_2 in2 i) as [b ->]; [lia|]. }
  destruct (foldM_update id f (seq 0 N) out) as (out' & -> & Hlen & Hupd & Hsame).
  { rewrite list_fmap_id. apply NoDup_seq. }
  { intros i Hi%elem_of_seq. unfold id. lia. }
  exists out'. split_and!; [done|done| |].
  - intros i a b o Hi Ha Hb Hoi. pose proof (Hupd i o) as Hx. unfold id, f in Hx.
    rewrite Ha, Hb in Hx. apply Hx; [apply elem_of_seq; lia|done].
  - intros i Hi. apply Hsame. rewrite list_fmap_id, elem_of_seq. lia.
Qed.

(** With [alpha = 0] and finite inputs the term that is added is zero. *)
Lemma double_zero_term (a b o : double) :
  is_finite a → is_finite b → fadd o (fmul (fmul (Finite 0) a) b) = o.
Proof.
  destruct a as [x| |], b as [y| |]; try done. intros _ _.
  destruct o as [z| |]; cbn; [|done..]. f_equal. lia.
Qed.

(** C7, as stated, fails twice.  With [alpha = 0] and an infinite entry in
    [in1] the product is NaN, and so is the entry of [out] afterwards.  And
    for [N = 2^25 + 1] the launcher starts [2^31 + 4096] threads: the thread
    with global id [2^31] has the index [-2^31], which is below [N], and
    indexes [out] there. *)
Lemma vmul_counterexample :
  vmul true (Finite 0) [Inf false] [Finite 1] [Finite 5] 1 = Done [NaN] ∧
  [NaN] ≠ [Finite 5] ∧
  (let N := Z.to_nat (2 ^ 25 + 1) in
   vmul true 1 (replicate N 1%Z) (replicate N 1%Z) (replicate N 0%Z) N = Undefined).
Proof.
  split_and!; [by vm_compute|done|]. intros N. apply vmul_index_wraps. lia.
Qed.

(** C7, amended. For every [N] up to [2^25] and vectors of at least [N]
    entries, over any element arithmetic, [HipKernels::vmul] returns with
    [out[i] + alpha * in1[i] * in2[i]] in every slot [i < N] of [out] and
    with the other slots as they were; with [alpha = 0] and finite values in
    the first [N] entries of the two inputs the vector [out], whatever it
    holds, is unchanged. *)
Theorem vmul_spec {D} `{Arith D} (alpha : D) (in1 in2 out : list D)
    (d1 d2 dout : list double) (N : nat) :
  (Z.of_nat N ≤ 2 ^ 25)%Z →
  N ≤ length in1 → N ≤ length in2 → N ≤ length out →
  N ≤ length d1 → N ≤ length d2 → N ≤ length dout →
  Forall is_finite (take N d1) → Forall is_finite (take N d2) →
  (∃ out', vmul true alpha in1 in2 out N = Done out' ∧ length out' = length out ∧
     (∀ i a b o, i < N → in1 !! i = Some a → in2 !! i = Some b → out !! i = Some o →
        out' !! i = Some (fadd o (fmul (fmul alpha a) b))) ∧
     (∀ i, N ≤ i → out' !! i = out !! i)) ∧
  vmul true (Finite 0) d1 d2 dout N = Done dout.
Proof.
  intros HN H1 H2 Ho Hd1 Hd2 Hdo Hf1 Hf2. rewrite !vmul_launch by done. split.
  - destruct (vmul_fold alpha in1 in2 out N) as (out' & -> & Hlen & Hupd & Hsame); [done..|].
    by exists out'.
  - destruct (vmul_fold (Finite 0) d1 d2 dout N) as (out' & -> & Hlen & Hupd & Hsame);
      [done..|].
    cbn [finish]. f_equal. apply list_eq. intros i.
    destruct (decide (i < N)) as [Hi|Hi]; [|apply Hsame; lia].
    destruct (lookup_lt_is_Some_2 d1 i) as [a Ha]; [lia|].
    destruct (lookup_lt_is_Some_2 d2 i) as [b Hb]; [lia|].
    destruct (lookup_lt_is_Some_2 dout i) as [o Hoi]; [lia|].
    rewrite (Hupd i a b o), Hoi by done. f_equal. apply double_zero_term.
    + apply (Forall_lookup_1 _ _ i a Hf1). by rewrite lookup_take_lt.
    + apply (Forall_lookup_1 _ _ i b Hf2). by rewrite lookup_take_lt.
Qed.

Lemma vmul_spec_witness :
  (∃ out', vmul true 2 [1; 2; 3]%Z [4; 5; 6]%Z [10; 20; 30]%Z 3 = Done out' ∧
     length out' = 3 ∧
     (∀ i a b o, i < 3 → [1; 2; 3]%Z !! i = Some a → [4; 5; 6]%Z !! i = Some b →
        [10; 20; 30]%Z !! i = Some o → out' !! i = Some (fadd o (fmul (fmul 2%Z a) b))) ∧
     (∀ i, 3 ≤ i → out' !! i = [10; 20; 30]%Z !! i)) ∧
  vmul true (Finite 0) [Finite 1; Finite (-2); Finite 3; Inf true]
    [Finite 4; Finite 5; Finite 6; NaN] [Finite 10; Inf false; NaN; Finite 7] 3
  = Done [Finite 10; Inf false; NaN; Finite 7].
Proof.
  apply (vmul_spec 2%Z [1; 2; 3]%Z [4; 5; 6]%Z [10; 20; 30]%Z
           [Finite 1; Finite (-2); Finite 3; Inf true] [Finite 4; Finite 5; Finite 6; NaN]
           [Finite 10; Inf false; NaN; Finite 7] 3);
    try (simpl; lia); simpl; repeat constructor.
Defined.

(** ** [prolongate_vector] *)


Lemma launch_seq {M} (gridDim blockDim N : nat) (body : nat → M → option M) (m : M) :
  N ≤ gridDim → 0 < blockDim →
  launch gridDim blockDim
    (λ blockIdx threadIdx, while_lt N body N gridDim (blockDim * blockIdx + threadIdx)) m
  = foldM body (seq 0 N) m.
Proof. intros HG HB. by rewrite launch_claimed, claimed_once. Qed.



(** ** The pressure transfer kernels *)

Lemma sum_range_3 (f : nat → Z) : sum_range 0 3 f = (f 0%nat + f 1%nat + f 2%nat)%Z.
Proof. unfold sum_range, sum_over. simpl. lia. Qed.

(** What the restriction kernel leaves in [coarse_y[row]]. *)
Lemma restriction_body_store (fine_y weights coarse_y : vec) (row : nat) :
  3 * row + 3 ≤ length fine_y → 3 * row + 3 ≤ length weights →
  restriction_body fine_y weights row coarse_y
  = store coarse_y row
      (fine_y.[3 * row] * weights.[3 * row]
       + fine_y.[3 * row + 1] * weights.[3 * row + 1]
       + fine_y.[3 * row + 2] * weights.[3 * row + 2])%Z.
Proof.
  intros Hf Hw. unfold restriction_body, block_size. cbn [seq foldM].
  rewrite !(list_lookup_lookup_total_lt fine_y), !(list_lookup_lookup_total_lt weights) by lia.
  simpl. rewrite Nat.add_0_r. done.
Qed.

Lemma restriction_fold (fine_y weights coarse_y : vec) (Nb : nat) :
  3 * Nb ≤ length fine_y → 3 * Nb ≤ length weights → Nb ≤ length coarse_y →
  ∃ coarse', foldM (restriction_body fine_y weights) (seq 0 Nb) coarse_y = Some coarse' ∧
    length coarse' = length coarse_y ∧
    (∀ row, row < Nb → coarse' !! row = Some
       (fine_y.[3 * row] * weights.[3 * row]
        + fine_y.[3 * row + 1] * weights.[3 * row + 1]
        + fine_y.[3 * row + 2] * weights.[3 * row + 2])%Z) ∧
    (∀ row, Nb ≤ row → coarse' !! row = coarse_y !! row).
Proof.
  intros Hf Hw Hc.
  set (v := λ row, (fine_y.[3 * row] * weights.[3 * row]
     + fine_y.[3 * row + 1] * weights.[3 * row + 1]
     + fine_y.[3 * row + 2] * weights.[3 * row + 2])%Z).
  rewrite (foldM_ext _ (λ row m, store m (id row) (v row))); last first.
  { intros row m Hrow%elem_of_seq. apply restriction_body_store; unfold id; lia. }
  destruct (foldM_store id v (seq 0 Nb) coarse_y) as (coarse' & -> & Hlen & Hupd & Hsame).
  { intros row Hrow%elem_of_seq. unfold id. lia. }
  { intros i j _ _ Hij. unfold id in Hij. by subst. }
  exists coarse'. split_and!; [done|done| |].
  - intros row Hrow. apply (Hupd row). apply elem_of_seq. lia.
  - intros row Hrow. apply Hsame. rewrite list_fmap_id, elem_of_seq. lia.
Qed.



Lemma restriction_launch (fine_y weights coarse_y : vec) (Nb : nat) :
  full_to_pressure_restriction true fine_y weights coarse_y Nb
  = finish (foldM (restriction_body fine_y weights) (seq 0 Nb) coarse_y).
Proof.
  unfold full_to_pressure_restriction, full_to_pressure_restriction_k.
  by rewrite launch_seq by (try apply ceilDivision_covers; lia).
Qed.


(** C5. [full_to_pressure_restriction] writes the weighted sum of the block
    into [coarse_y[row]] for every block row and writes nothing else; on the
    block [1,2,3] with unit weights the coarse value is 6, and its injection
    at offset 0 into a zeroed fine vector gives [6,0,0]. *)
Theorem restriction_spec (fine_y weights coarse_y : vec) (Nb : nat) :
  block_size * Nb ≤ length fine_y → block_size * Nb ≤ length weights → Nb ≤ length coarse_y →
  (∃ coarse', full_to_pressure_restriction true fine_y weights coarse_y Nb = Done coarse' ∧
     length coarse' = length coarse_y ∧
     (∀ row, row < Nb →
        coarse' !! row = Some (sum_range 0 block_size (λ i,
          fine_y.[row * block_size + i] * weights.[row * block_size + i])%Z)) ∧
     (∀ row, Nb ≤ row → coarse' !! row = coarse_y !! row)) ∧
  (∀ c, full_to_pressure_restriction true [1; 2; 3]%Z [1; 1; 1]%Z [c] 1 = Done [6%Z]) ∧
  add_coarse_pressure_correction true [6%Z] [0; 0; 0]%Z 0 1 = Done [6; 0; 0]%Z.
Proof.
  unfold block_size. intros Hf Hw Hc. split; [|split; [intros c|]; by vm_compute].
  rewrite restriction_launch.
  destruct (restriction_fold fine_y weights coarse_y Nb) as (coarse' & -> & Hlen & Hupd & Hsame);
    [done..|].
  exists coarse'. split_and!; [done|done| |done].
  intros row Hrow. rewrite (Hupd row Hrow), sum_range_3. f_equal.
  replace (row * 3 + 0) with (3 * row) by lia.
  replace (row * 3 + 1) with (3 * row + 1) by lia.
  by replace (row * 3 + 2) with (3 * row + 2) by lia.
Qed.

Lemma restriction_spec_witness :
  (∃ coarse', full_to_pressure_restriction true [1; 2; 3; 4; 5; 6]%Z [1; 0; 2; 1; 1; 1]%Z
                [0; 0; 9]%Z 2 = Done coarse' ∧
     length coarse' = 3 ∧
     (∀ row, row < 2 →
        coarse' !! row = Some (sum_range 0 block_size (λ i,
          [1; 2; 3; 4; 5; 6]%Z.[row * block_size + i]
          * [1; 0; 2; 1; 1; 1]%Z.[row * block_size + i])%Z)) ∧
     (∀ row, 2 ≤ row → coarse' !! row = [0; 0; 9]%Z !! row)) ∧
  (∀ c, full_to_pressure_restriction true [1; 2; 3]%Z [1; 1; 1]%Z [c] 1 = Done [6%Z]) ∧
  add_coarse_pressure_correction true [6%Z] [0; 0; 0]%Z 0 1 = Done [6; 0; 0]%Z.
Proof.
  apply (restriction_spec [1; 2; 3; 4; 5; 6]%Z [1; 0; 2; 1; 1; 1]%Z [0; 0; 9]%Z 2);
    vm_compute; lia.
Defined.
(** ** Finite sums *)

Lemma sum_over_app (l1 l2 : list nat) (f : nat → Z) :
  sum_over (l1 ++ l2) f = (sum_over l1 f + sum_over l2 f)%Z.
Proof. unfold sum_over. induction l1 as [|a l1 IH]; simpl; [done|]. rewrite IH. lia. Qed.

Lemma sum_over_ext (l : list nat) (f g : nat → Z) :
  (∀ j, j ∈ l → f j = g j) → sum_over l f = sum_over l g.
Proof.
  unfold sum_over. induction l as [|a l IH]; intros Hfg; simpl; [done|].
  rewrite IH, Hfg; [done|left|]. intros j Hj. apply Hfg. by right.
Qed.

Lemma sum_range_empty (s e : nat) (f : nat → Z) : e ≤ s → sum_range s e f = 0%Z.
Proof. intros H. unfold sum_range. by replace (e - s) with 0 by lia. Qed.

Lemma sum_range_split (s m e : nat) (f : nat → Z) :
  s ≤ m → m ≤ e → sum_range s e f = (sum_range s m f + sum_range m e f)%Z.
Proof.
  intros H1 H2. unfold sum_range. rewrite <- sum_over_app.
  replace (e - s) with ((m - s) + (e - m)) by lia. rewrite seq_app.
  by replace (s + (m - s)) with m by lia.
Qed.

Lemma sum_range_first (s e : nat) (f : nat → Z) :
  s < e → sum_range s e f = (f s + sum_range (S s) e f)%Z.
Proof.
  intros H. unfold sum_range. replace (e - s) with (S (e - S s)) by lia. done.
Qed.

Lemma sum_range_last (s e : nat) (f : nat → Z) :
  s ≤ e → sum_range s (S e) f = (sum_range s e f + f e)%Z.
Proof.
  intros H. rewrite (sum_range_split s e (S e)) by lia. f_equal.
  rewrite sum_range_first, sum_range_empty by lia. lia.
Qed.

Lemma sum_range_ext (s e : nat) (f g : nat → Z) :
  (∀ j, s ≤ j < e → f j = g j) → sum_range s e f = sum_range s e g.
Proof.
  intros Hfg. apply sum_over_ext. intros j Hj%elem_of_seq. apply Hfg. lia.
Qed.

Lemma sum_range_const (s e : nat) (c : Z) :
  sum_range s e (λ _, c) = (Z.of_nat (e - s) * c)%Z.
Proof.
  unfold sum_range, sum_over. generalize (e - s) as n. intros n. revert s.
  induction n as [|n IH]; intros s; [done|].
  cbn [seq foldr]. rewrite IH. lia.
Qed.

Lemma sum_range_shift (s e d : nat) (f : nat → Z) :
  sum_range (s + d) (e + d) f = sum_range s e (λ j, f (j + d)).
Proof.
  unfold sum_range, sum_over. replace (e + d - (s + d)) with (e - s) by lia.
  generalize (e - s) as n. intros n. revert s.
  induction n as [|n IH]; intros s; [done|].
  cbn [seq foldr]. rewrite <- IH. done.
Qed.

Lemma sum_range_add (s e : nat) (f g : nat → Z) :
  sum_range s e (λ j, f j + g j)%Z = (sum_range s e f + sum_range s e g)%Z.
Proof.
  unfold sum_range, sum_over. generalize (e - s) as n. intros n. revert s.
  induction n as [|n IH]; intros s; [done|].
  cbn [seq foldr]. rewrite IH. lia.
Qed.

Lemma sum_range_zero (s e : nat) (f : nat → Z) :
  (∀ j, s ≤ j < e → f j = 0%Z) → sum_range s e f = 0%Z.
Proof.
  intros Hf. rewrite (sum_range_ext s e f (λ _, 0%Z)) by done. rewrite sum_range_const. lia.
Qed.

(** Summation over a rectangle, in either order. *)
Lemma sum_range_swap (s1 e1 s2 e2 : nat) (f : nat → nat → Z) :
  sum_range s1 e1 (λ i, sum_range s2 e2 (λ j, f i j))
  = sum_range s2 e2 (λ j, sum_range s1 e1 (λ i, f i j)).
Proof.
  destruct (decide (s1 ≤ e1)) as [H1|H1]; last first.
  { rewrite sum_range_empty by lia. symmetry. apply sum_range_zero.
    intros j _. apply sum_range_empty. lia. }
  induction H1 as [|e1 H1 IH].
  - rewrite sum_range_empty by lia. symmetry. apply sum_range_zero.
    intros j _. apply sum_range_empty. lia.
  - rewrite sum_range_last, IH by done. rewrite <- sum_range_add.
    apply sum_range_ext. intros j _. by rewrite sum_range_last.
Qed.
(** ** Restriction followed by injection *)



(** ** The block size of the pressure transfer kernels *)




(** ** Launch configurations of the grid-stride kernels *)




(** *** Indices claimed once *)






Lemma elem_of_claimed (gridDim blockDim N r : nat) :
  0 < gridDim → 0 < blockDim → r ∈ claimed gridDim blockDim N ↔ r < N.
Proof.
  intros HG HB. unfold claimed.
  rewrite (grid_gid gridDim blockDim (stride_trace N N gridDim)).
  apply elem_of_group_rows; nia.
Qed.

(** *** Launches that claim every index once *)






(** ** Without device support *)

(** C9. Compiled without [__HIP__], each of the six host functions raises at
    once the error whose text names the operation, and the output vector is
    the one it was given. *)
Theorem no_device_support (alpha : Z) (in1 in2 out fine_y weights coarse_y coarse_x fine_x
    in_ vals x rhs y : vec) (cols rows : list nat) (N Nb pressure_idx warpsize bs : nat) :
  let message operation :=
    "Error " +:+ operation +:+ " for rocsparse only supported when compiling with hipcc" in
  vmul false alpha in1 in2 out N = Thrown (message "vmul") out ∧
  full_to_pressure_restriction false fine_y weights coarse_y Nb
  = Thrown (message "full_to_pressure_restriction") coarse_y ∧
  add_coarse_pressure_correction false coarse_x fine_x pressure_idx Nb
  = Thrown (message "add_coarse_pressure_correction") fine_x ∧
  prolongate_vector false in_ out cols N = Thrown (message "prolongate_vector") out ∧
  residual false warpsize vals cols rows x rhs out Nb bs = Thrown (message "residual") out ∧
  spmv false vals cols rows x y Nb bs = Thrown (message "spmv") y.
Proof. by split_and!. Qed.
(** ** Strided loops over a row *)

Lemma foldM_filter {A M} (c : A → bool) (f : A → M → option M) (l : list A) (m : M) :
  foldM (λ a m', if c a then f a m' else Some m') l m = foldM f (filter (λ a, c a = true) l) m.
Proof.
  revert m. induction l as [|a l IH]; intros m; [done|].
  rewrite filter_cons. cbn [foldM]. destruct (c a) eqn:Hc.
  - rewrite decide_True by done. cbn [foldM]. destruct (f a m); simpl; [apply IH|done].
  - rewrite decide_False by done. simpl. apply IH.
Qed.

(** A loop that accumulates [entry j] over the indices it visits. *)
Lemma foldM_accumulate (step : nat → Z → option Z) (entry : nat → Z) (l : list nat) (acc : Z) :
  (∀ j a, j ∈ l → step j a = Some (a + entry j)%Z) →
  foldM step l acc = Some (acc + sum_over l entry)%Z.
Proof.
  revert acc. induction l as [|j l IH]; intros acc Hstep; simpl.
  - f_equal. unfold sum_over. simpl. lia.
  - rewrite Hstep by left. simpl. rewrite IH by (intros; apply Hstep; by right).
    f_equal. unfold sum_over. simpl. lia.
Qed.

(** The threads [t < B] of a work-group, each taking every [B]-th index from
    [s + t] on, visit together the range from [s] to [e]. *)
Lemma strided_partition (f : nat → Z) (B e fuel s : nat) :
  0 < B → e ≤ s + fuel →
  sum_range 0 B (λ t, sum_over (stride_trace fuel e B (s + t)) f) = sum_range s e f.
Proof.
  intros HB. revert s. induction fuel as [|fuel IH]; intros s Hf.
  - rewrite (sum_range_empty s e) by lia. apply sum_range_zero. intros t _. simpl.
    by destruct (s + t <? e).
  - set (g := λ t, if s + t <? e then f (s + t) else 0%Z).
    rewrite (sum_range_ext 0 B _ (λ t, g t
        + sum_over (stride_trace fuel e B (s + B + t)) f)%Z); last first.
    { intros t _. unfold g. cbn [stride_trace]. destruct (Nat.ltb_spec (s + t) e).
      - unfold sum_over. cbn [foldr]. by replace (s + t + B) with (s + B + t) by lia.
      - destruct fuel; simpl; [by destruct (_ <? _)|].
        destruct (Nat.ltb_spec (s + B + t) e); [lia|done]. }
    rewrite sum_range_add, IH by lia. unfold g.
    destruct (decide (s + B ≤ e)) as [Hle|Hgt].
    + rewrite (sum_range_split s (s + B) e) by lia. f_equal.
      rewrite (sum_range_ext 0 B _ (λ t, f (t + s))).
      * rewrite <- (sum_range_shift 0 B s). f_equal; lia.
      * intros t Ht. destruct (Nat.ltb_spec (s + t) e); [f_equal|]; lia.
    + rewrite (sum_range_empty (s + B)), Z.add_0_r by lia.
      destruct (decide (s ≤ e)) as [Hse|Hse]; last first.
      { rewrite (sum_range_empty s) by lia. apply sum_range_zero. intros t _.
        destruct (Nat.ltb_spec (s + t) e); [lia|done]. }
      rewrite (sum_range_split 0 (e - s) B) by lia.
      rewrite (sum_range_zero (e - s) B), Z.add_0_r; last first.
      { intros t Ht. destruct (Nat.ltb_spec (s + t) e); [lia|done]. }
      rewrite (sum_range_ext 0 (e - s) _ (λ t, f (t + s))).
      * rewrite <- (sum_range_shift 0 (e - s) s). simpl. f_equal. lia.
      * intros t Ht. destruct (Nat.ltb_spec (s + t) e); [f_equal|]; lia.
Qed.
(** ** The scalar kernels: one row *)

Lemma mapM_seq_Some {A} (f : nat → option A) (g : nat → A) (n : nat) :
  (∀ t, t < n → f t = Some (g t)) → mapM f (seq 0 n) = Some (g <$> seq 0 n).
Proof.
  intros Hfg. apply mapM_Some_2, Forall2_fmap_r, Forall_Forall2_diag, Forall_forall.
  intros t Ht%elem_of_seq. apply Hfg. lia.
Qed.

Lemma lookup_total_fmap_seq (g : nat → Z) (n t : nat) :
  t < n → (g <$> seq 0 n).[t] = g t.
Proof.
  intros Ht. apply list_lookup_total_correct.
  by rewrite list_lookup_fmap, lookup_seq_lt.
Qed.




(** ** Well-formed matrices *)

Lemma bsr_row_bounds (bs Nb : nat) (vals : vec) (cols rows : list nat) (row : nat) :
  bsr_matrix bs Nb vals cols rows → row < Nb →
  rows !! row = Some rows.[row] ∧ rows !! (row + 1) = Some rows.[row + 1] ∧
  rows.[row] ≤ rows.[row + 1] ∧ rows.[row + 1] ≤ length cols.
Proof.
  intros [Hlen Hmono Hlast Hvals Hcols] Hrow.
  assert (rows !! row = Some rows.[row]) as H1 by (apply list_lookup_lookup_total_lt; lia).
  assert (rows !! (row + 1) = Some rows.[row + 1]) as H2
    by (apply list_lookup_lookup_total_lt; lia).
  split_and!; [done|done| |].
  - apply (Hmono row (row + 1)); [lia|done..].
  - apply (Hmono (row + 1) Nb); [lia|done..].
Qed.

Lemma bsr_col_bound (bs Nb : nat) (vals : vec) (cols rows : list nat) (block : nat) :
  bsr_matrix bs Nb vals cols rows → block < length cols → cols.[block] < Nb.
Proof.
  intros [_ _ _ _ Hcols] Hb.
  apply (Forall_lookup_1 _ _ block _ Hcols), list_lookup_lookup_total_lt, Hb.
Qed.

(** ** [spmv] on scalar matrices *)







(** ** The blocked kernel: one lane *)

Lemma local_out_of_spec (vals : vec) (cols : list nat) (x : vec)
    (bs warpsize first_block last_block lane : nat) :
  0 < bs →
  (∀ block, first_block ≤ block < last_block →
     block < length cols ∧ block * bs * bs + bs * bs ≤ length vals ∧
     cols.[block] * bs + bs ≤ length x) →
  local_out_of vals cols x bs warpsize first_block last_block lane
  = Some (if lane <? warpsize / bs / bs * bs * bs
          then sum_over (stride_trace (last_block - first_block) last_block
                           (warpsize / bs / bs) (first_block + lane / (bs * bs)))
                        (block_term bs vals cols x (lane mod bs) ((lane / bs) mod bs))
          else 0%Z).
Proof.
  intros Hbs Hrange. unfold local_out_of.
  destruct (Nat.ltb_spec lane (warpsize / bs / bs * bs * bs)) as [Hact|]; [|done].
  rewrite while_lt_trace by (try destruct (warpsize / bs / bs); lia).
  rewrite (foldM_accumulate _
             (block_term bs vals cols x (lane mod bs) ((lane / bs) mod bs))); [f_equal; lia|].
  intros block a (Hb & k & ->)%elem_of_stride_trace;
    [|try destruct (warpsize / bs / bs); lia..].
  set (block := first_block + lane / (bs * bs) + k * (warpsize / bs / bs)) in *.
  destruct (Hrange block) as (Hc & Hv & Hx); [unfold block; lia|].
  pose proof (Nat.mod_upper_bound lane bs). pose proof (Nat.mod_upper_bound (lane / bs) bs).
  unfold block_entry, block_term.
  rewrite (list_lookup_lookup_total_lt cols) by done. cbn [mbind option_bind].
  rewrite (list_lookup_lookup_total_lt x) by lia. cbn [mbind option_bind].
  rewrite (list_lookup_lookup_total_lt vals) by nia. cbn [mbind option_bind].
  f_equal. f_equal. rewrite Z.mul_comm. do 2 f_equal. lia.
Qed.

(** ** The blocked kernel: the reduction over the lanes *)

Lemma shift_step_spec (warpsize offset : nat) (tmp : vec) :
  length tmp = warpsize →
  ∃ tmp', shift_step warpsize offset tmp = Some tmp' ∧ length tmp' = warpsize ∧
    ∀ lane, lane < warpsize →
      tmp'.[lane] = (tmp.[lane] + if (lane + offset <? warpsize)%nat then tmp.[lane + offset] else 0)%Z.
Proof.
  intros Hlen. unfold shift_step.
  rewrite (foldM_filter (λ lane, lane + offset <? warpsize)
             (λ lane tmp', a ← tmp !! lane; b ← tmp !! (lane + offset); store tmp' lane (a + b)%Z)).
  set (l := filter _ _).
  assert (∀ lane, lane ∈ l ↔ lane + offset < warpsize) as Hl.
  { intros t. unfold l. rewrite list_elem_of_filter, elem_of_seq, Nat.ltb_lt. lia. }
  rewrite (foldM_ext _ (λ lane m, store m (id lane) (tmp.[lane] + tmp.[lane + offset])%Z));
    last first.
  { intros t m Ht%Hl. by rewrite !list_lookup_lookup_total_lt by lia. }
  destruct (foldM_store id (λ lane, tmp.[lane] + tmp.[lane + offset])%Z l tmp)
    as (tmp' & -> & Hlen' & Hupd & Hsame).
  { intros t Ht%Hl. unfold id. lia. }
  { intros i j _ _ Hij. unfold id in Hij. by subst. }
  exists tmp'. split_and!; [done|lia|].
  intros lane Hlane. destruct (Nat.ltb_spec (lane + offset) warpsize) as [Hin|Hout].
  - apply list_lookup_total_correct, (Hupd lane), Hl, Hin.
  - rewrite Z.add_0_r, !list_lookup_total_alt, Hsame; [done|].
    rewrite list_fmap_id, Hl. lia.
Qed.
Lemma lane_sum_1 (warpsize : nat) (tmp : vec) (lane : nat) :
  lane < warpsize → lane_sum warpsize tmp 1 lane = tmp.[lane].
Proof.
  intros Hl. unfold lane_sum, sum_range, sum_over. cbn [seq foldr Nat.sub].
  replace (lane + 3 * 0) with lane by lia.
  destruct (Nat.ltb_spec lane warpsize); lia.
Qed.

Lemma lane_sum_double (warpsize : nat) (tmp : vec) (m lane : nat) :
  lane_sum warpsize tmp (2 * m) lane
  = (lane_sum warpsize tmp m lane
     + if (lane + 3 * m <? warpsize)%nat then lane_sum warpsize tmp m (lane + 3 * m) else 0)%Z.
Proof.
  unfold lane_sum. rewrite (sum_range_split 0 m (2 * m)) by lia. f_equal.
  replace (2 * m) with (m + m) by lia.
  rewrite (sum_range_shift 0 m m). destruct (Nat.ltb_spec (lane + 3 * m) warpsize).
  - apply sum_range_ext. intros k _. by replace (lane + 3 * (k + m)) with (lane + 3 * m + 3 * k) by lia.
  - apply sum_range_zero. intros k _.
    destruct (Nat.ltb_spec (lane + 3 * (k + m)) warpsize); [lia|done].
Qed.

Lemma shift_reduce_spec (warpsize : nat) (tmp0 : vec) (j : nat) :
  ∀ fuel m tmp,
    length tmp = warpsize →
    (∀ lane, lane < warpsize → tmp.[lane] = lane_sum warpsize tmp0 m lane) →
    (∀ i, i < j → 3 * m * 2 ^ i ≤ offsetTarget warpsize) →
    offsetTarget warpsize < 3 * m * 2 ^ j → j ≤ fuel →
    ∃ tmp', shift_reduce fuel warpsize (3 * m) tmp = Some tmp' ∧ length tmp' = warpsize ∧
      ∀ lane, lane < warpsize → tmp'.[lane] = lane_sum warpsize tmp0 (m * 2 ^ j) lane.
Proof.
  induction j as [|j IH]; intros fuel m tmp Hlen Hinv Hle Hgt Hfuel.
  - exists tmp. split_and!; [|done|].
    + rewrite Nat.pow_0_r in Hgt.
      destruct fuel; cbn [shift_reduce];
        destruct (Nat.leb_spec (3 * m) (offsetTarget warpsize)); first [done | exfalso; lia].
    + intros lane Hlane. rewrite Nat.pow_0_r, Nat.mul_1_r. by apply Hinv.
  - destruct fuel as [|fuel]; [lia|]. cbn [shift_reduce].
    destruct (Nat.leb_spec (3 * m) (offsetTarget warpsize)) as [_|Hbad];
      [|specialize (Hle 0); simpl in Hle; lia].
    destruct (shift_step_spec warpsize (3 * m) tmp Hlen) as (tmp1 & -> & Hlen1 & Hstep).
    cbn [mbind option_bind]. replace (2 * (3 * m)) with (3 * (2 * m)) by lia.
    destruct (IH fuel (2 * m) tmp1) as (tmp' & -> & Hlen' & Hres).
    + done.
    + intros lane Hlane. rewrite (Hstep lane Hlane), lane_sum_double, (Hinv lane Hlane).
      f_equal. destruct (Nat.ltb_spec (lane + 3 * m) warpsize); [|done]. by apply Hinv.
    + intros i Hi. specialize (Hle (S i)). rewrite Nat.pow_succ_r' in Hle. lia.
    + rewrite Nat.pow_succ_r' in Hgt. lia.
    + lia.
    + exists tmp'. split_and!; [done|done|]. intros lane Hlane. rewrite (Hres lane Hlane).
      f_equal. rewrite Nat.pow_succ_r'. lia.
Qed.

Lemma lanes_to_blocks_64 (T : nat → nat → nat → Z) (r : nat) :
  r < 3 →
  sum_range 0 32 (λ k, if r + 3 * k <? 64 then lane_value 64 T (r + 3 * k) else 0%Z)
  = sum_range 0 3 (λ c, sum_range 0 7 (λ q, T q c r)).
Proof.
  intros Hr. destruct r as [|[|[|r]]]; [| | |lia];
    unfold sum_range, sum_over, lane_value; cbn; lia.
Qed.

Lemma lanes_to_blocks_32 (T : nat → nat → nat → Z) (r : nat) :
  r < 3 →
  sum_range 0 16 (λ k, if r + 3 * k <? 32 then lane_value 32 T (r + 3 * k) else 0%Z)
  = sum_range 0 3 (λ c, sum_range 0 3 (λ q, T q c r)).
Proof.
  intros Hr. destruct r as [|[|[|r]]]; [| | |lia];
    unfold sum_range, sum_over, lane_value; cbn; lia.
Qed.
Lemma filter_ltb_seq_above (b s n : nat) :
  b ≤ s → filter (λ lane, (lane <? b) = true) (seq s n) = [].
Proof.
  revert s. induction n as [|n IH]; intros s Hs; [done|].
  cbn [seq]. rewrite filter_cons, decide_False; [apply IH; lia|].
  rewrite Nat.ltb_lt. lia.
Qed.

(** ** The blocked kernel: one block row

    The statements of this section hold for a warp width [warpsize] whose
    reduction runs [steps] times and regroups the lanes as assumed; both
    widths of interest are instances (see below). *)
Section WarpWidth.
Variables (warpsize steps nb : nat).
Hypothesis Hnb : warpsize / 3 / 3 = nb.
Hypothesis Hnb_pos : 0 < nb.
Hypothesis Hwide : 3 ≤ warpsize.
Hypothesis Hsteps : ∀ i, i < steps → 3 * 1 * 2 ^ i ≤ offsetTarget warpsize.
Hypothesis Hstop : offsetTarget warpsize < 3 * 1 * 2 ^ steps.
Hypothesis Hfuel : steps ≤ offsetTarget warpsize.
Hypothesis Hregroup : ∀ (T : nat → nat → nat → Z) r, r < 3 →
  sum_range 0 (1 * 2 ^ steps)
    (λ k, if r + 3 * k <? warpsize then lane_value warpsize T (r + 3 * k) else 0%Z)
  = sum_range 0 3 (λ c, sum_range 0 nb (λ q, T q c r)).

Variables (vals : vec) (cols rows : list nat) (x rhs : vec) (Nb : nat).
Hypothesis Hm : bsr_matrix 3 Nb vals cols rows.
Hypothesis Hx : length x = Nb * 3.
Hypothesis Hrhs : length rhs = Nb * 3.

Lemma blocked_row_in_range (row block : nat) :
  row < Nb → rows.[row] ≤ block < rows.[row + 1] →
  block < length cols ∧ block * 3 * 3 + 3 * 3 ≤ length vals ∧ cols.[block] * 3 + 3 ≤ length x.
Proof using All.
  intros Hrow Hb. destruct (bsr_row_bounds _ _ _ _ _ row Hm Hrow) as (_ & _ & _ & Hnnz).
  assert (block < length cols) as Hc by lia. split_and!; [done| |].
  - rewrite (bsr_vals_length _ _ _ _ _ Hm). lia.
  - pose proof (bsr_col_bound _ _ _ _ _ block Hm Hc). lia.
Qed.

(** The slots [0], [1], [2] of [tmp] after the reduction hold the three
    scalar rows of the product. *)
Lemma blocked_row_reduced (row : nat) :
  row < Nb →
  ∃ tmp, (mapM (local_out_of vals cols x 3 warpsize rows.[row] rows.[row + 1]) (seq 0 warpsize)
          ≫= shift_reduce (offsetTarget warpsize) warpsize 3) = Some tmp ∧
    length tmp = warpsize ∧
    ∀ lane, lane < 3 → tmp.[lane] = bsr_product 3 vals cols rows x (row * 3 + lane).
Proof using All.
  intros Hrow.
  set (T := λ q c r, sum_over (stride_trace (rows.[row + 1] - rows.[row]) rows.[row + 1]
                                 nb (rows.[row] + q))
                              (block_term 3 vals cols x r c)).
  rewrite (mapM_seq_Some _ (lane_value warpsize T)); last first.
  { intros lane _. rewrite local_out_of_spec; [|lia|intros block Hb; by apply (blocked_row_in_range row)].
    unfold lane_value, T. by rewrite Hnb. }
  cbn [mbind option_bind]. set (tmp0 := lane_value warpsize T <$> seq 0 warpsize).
  destruct (shift_reduce_spec warpsize tmp0 steps (offsetTarget warpsize) 1 tmp0)
    as (tmp & Htmp & Hlen & Hres); [|intros; by rewrite lane_sum_1|done..|].
  { unfold tmp0. by rewrite length_fmap, length_seq. }
  change (3 * 1) with 3 in Htmp. exists tmp. split_and!; [done|done|].
  intros lane Hlane. rewrite Hres by lia. unfold lane_sum.
  rewrite (sum_range_ext _ _ _
    (λ k, if lane + 3 * k <? warpsize then lane_value warpsize T (lane + 3 * k) else 0%Z)).
  2:{ intros k _. destruct (Nat.ltb_spec (lane + 3 * k) warpsize); [|done].
      by apply lookup_total_fmap_seq. }
  rewrite Hregroup by done. unfold bsr_product.
  replace ((row * 3 + lane) / 3) with row by (apply Nat.div_unique with lane; lia).
  replace ((row * 3 + lane) mod 3) with lane
    by (apply Nat.mod_unique with row; lia).
  rewrite (sum_range_swap rows.[row] rows.[row + 1] 0 3). apply sum_range_ext. intros c _.
  unfold T. apply strided_partition; [done|].
  destruct (bsr_row_bounds _ _ _ _ _ row Hm Hrow) as (_ & _ & ? & _). lia.
Qed.

(** One turn of the loop of a warp writes the three scalar rows of its
    block row. *)
Lemma residual_blocked_row_stores (row : nat) (out : vec) :
  row < Nb →
  residual_blocked_row vals cols rows x rhs 3 warpsize row out
  = foldM (λ k m, store m k (rhs.[k] - bsr_product 3 vals cols rows x k)%Z)
          ((λ lane, row * 3 + lane) <$> seq 0 3) out.
Proof using All.
  intros Hrow. unfold residual_blocked_row.
  destruct (bsr_row_bounds _ _ _ _ _ row Hm Hrow) as (-> & -> & _ & _).
  cbn [mbind option_bind].
  destruct (blocked_row_reduced row Hrow) as (tmp & Htmp & Hlen & Hres).
  destruct (mapM _ _) as [tmp0|]; [|done]. cbn [mbind option_bind] in Htmp |- *.
  rewrite Htmp. cbn [mbind option_bind]. unfold write_block_row.
  rewrite (foldM_filter (λ lane, lane <? 3)
    (λ lane out', r ← rhs !! (row * 3 + lane); t ← tmp !! lane;
                  store out' (row * 3 + lane) (r - t)%Z)).
  replace (filter _ (seq 0 warpsize)) with (seq 0 3); last first.
  { replace warpsize with (3 + (warpsize - 3)) by lia.
    by rewrite seq_app, filter_app, (filter_ltb_seq_above 3 (0 + 3)), app_nil_r by lia. }
  rewrite foldM_fmap. apply foldM_ext. intros lane m Hl%elem_of_seq.
  rewrite (list_lookup_lookup_total_lt rhs), (list_lookup_lookup_total_lt tmp) by lia.
  cbn [mbind option_bind]. by rewrite Hres by lia.
Qed.
End WarpWidth.
(** The two widths satisfy the assumptions of the section. *)
Lemma residual_blocked_row_stores_width (warpsize : nat) (vals : vec) (cols rows : list nat)
    (x rhs : vec) (Nb row : nat) (out : vec) :
  warpsize = 32 ∨ warpsize = 64 →
  bsr_matrix 3 Nb vals cols rows → length x = Nb * 3 → length rhs = Nb * 3 → row < Nb →
  residual_blocked_row vals cols rows x rhs 3 warpsize row out
  = foldM (λ k m, store m k (rhs.[k] - bsr_product 3 vals cols rows x k)%Z)
          ((λ lane, row * 3 + lane) <$> seq 0 3) out.
Proof.
  intros [-> | ->] Hm Hx Hrhs Hrow.
  - apply (residual_blocked_row_stores 32 4 3) with (Nb := Nb);
      [reflexivity|lia|lia| |cbv; lia|cbv; lia|apply lanes_to_blocks_32|done..].
    intros i Hi. change (offsetTarget 32) with 32.
    destruct i as [|[|[|[|i]]]]; simpl; lia.
  - apply (residual_blocked_row_stores 64 5 7) with (Nb := Nb);
      [reflexivity|lia|lia| |cbv; lia|cbv; lia|apply lanes_to_blocks_64|done..].
    intros i Hi. change (offsetTarget 64) with 48.
    destruct i as [|[|[|[|[|i]]]]]; simpl; lia.
Qed.

(** For both widths the reduction, from the offset 3 up to the offset picked
    for the width, folds every lane of the warp into the lanes 0, 1, 2. *)
Lemma shift_reduce_folds (warpsize : nat) (tmp : vec) (r : nat) :
  warpsize = 32 ∨ warpsize = 64 → length tmp = warpsize → r < 3 →
  ∃ tmp', shift_reduce (offsetTarget warpsize) warpsize 3 tmp = Some tmp' ∧
    tmp'.[r] = sum_range 0 warpsize (λ lane, if lane mod 3 =? r then tmp.[lane] else 0%Z).
Proof.
  intros [-> | ->] Hlen Hr.
  - destruct (shift_reduce_spec 32 tmp 4 (offsetTarget 32) 1 tmp)
      as (tmp' & Htmp & _ & Hres); [done|intros; by rewrite lane_sum_1| |cbv; lia|cbv; lia|].
    { intros i Hi. change (offsetTarget 32) with 32.
      destruct i as [|[|[|[|i]]]]; simpl; lia. }
    exists tmp'. split; [exact Htmp|]. rewrite Hres by lia.
    destruct r as [|[|[|r]]]; [| | |lia];
      unfold lane_sum, sum_range, sum_over; cbn [seq foldr Nat.sub Nat.pow Nat.mul Nat.add
        Nat.ltb Nat.leb Nat.eqb Nat.modulo Nat.divmod fst snd]; lia.
  - destruct (shift_reduce_spec 64 tmp 5 (offsetTarget 64) 1 tmp)
      as (tmp' & Htmp & _ & Hres); [done|intros; by rewrite lane_sum_1| |cbv; lia|cbv; lia|].
    { intros i Hi. change (offsetTarget 64) with 48.
      destruct i as [|[|[|[|[|i]]]]]; simpl; lia. }
    exists tmp'. split; [exact Htmp|]. rewrite Hres by lia.
    destruct r as [|[|[|r]]]; [| | |lia];
      unfold lane_sum, sum_range, sum_over; cbn [seq foldr Nat.sub Nat.pow Nat.mul Nat.add
        Nat.ltb Nat.leb Nat.eqb Nat.modulo Nat.divmod fst snd]; lia.
Qed.

(** ** The blocked kernel: the whole grid *)

Lemma filter_none {A} (P : A → Prop) `{∀ x, Decision (P x)} (l : list A) :
  (∀ x, x ∈ l → ¬ P x) → filter P l = [].
Proof.
  induction l as [|a l IH]; intros Hl; [done|].
  rewrite filter_cons, decide_False by (apply Hl; left).
  apply IH. intros x Hx. apply Hl. by right.
Qed.

Lemma while_lt_done {M} (fuel : nat) (body : nat → M → option M) (N stride idx : nat) (m : M) :
  N ≤ idx → while_lt fuel body N stride idx m = Some m.
Proof. intros Hi. destruct fuel; simpl; by destruct (Nat.ltb_spec idx N); [lia|]. Qed.

(** A loop whose stride is 0 does not end, whatever the fuel. *)
Lemma while_lt_stuck {M} (P : M → Prop) (body : nat → M → option M) (N idx : nat) :
  idx < N → (∀ m, P m → ∃ m', body idx m = Some m' ∧ P m') →
  ∀ fuel m, P m → while_lt fuel body N 0 idx m = None.
Proof.
  intros Hi Hbody fuel. induction fuel as [|fuel IH]; intros m Hm; simpl;
    destruct (Nat.ltb_spec idx N); try lia; [done|].
  destruct (Hbody m Hm) as (m' & -> & Hm'). simpl. rewrite Nat.add_0_r. by apply IH.
Qed.

(** Two warps of one work-group write their block rows back from the same
    [tmp[0 .. 2]].  Whatever the shared array holds by then, the block rows
    0 and 1 of the matrix of two identity blocks, with [x = [1,...,6]],
    cannot both come out right: their products differ. *)
Lemma shared_tmp_write_back (tmp out1 out2 : vec) :
  let vals := [1; 0; 0; 0; 1; 0; 0; 0; 1; 1; 0; 0; 0; 1; 0; 0; 0; 1]%Z in
  let x := [1; 2; 3; 4; 5; 6]%Z in
  let rhs := [0; 0; 0; 0; 0; 0]%Z in
  write_block_row rhs tmp 3 32 0 [0; 0; 0; 0; 0; 0]%Z = Some out1 →
  write_block_row rhs tmp 3 32 1 out1 = Some out2 →
  ¬ ∀ i, i < 6 → out2 !! i = Some (Z.sub (rhs.[i]) (bsr_product 3 vals [0; 1] [0; 1; 2] x i)).
Proof.
  intros vals x rhs H1 H2 Hright.
  destruct tmp as [|t0 [|t1 [|t2 tmp]]]; try done.
  vm_compute in H1. injection H1 as <-. vm_compute in H2. injection H2 as <-.
  pose proof (Hright 0 ltac:(lia)) as H0. pose proof (Hright 3 ltac:(lia)) as H3.
  vm_compute in H0, H3. congruence.
Qed.

(** In a work-group of one warp, and in any work-group of whole warps when
    there is at most one block row, at most one warp enters the loop: the
    first, when its block row is below [Nb]. *)
Lemma residual_blocked_group_alone (gridDim blockDim warpsize : nat) (vals : vec)
    (cols rows : list nat) (Nb : nat) (x rhs : vec) (bs b : nat) (out : vec) :
  0 < warpsize →
  blockDim = warpsize ∨ (blockDim mod warpsize = 0 ∧ 0 < blockDim ∧ Nb ≤ 1) →
  residual_blocked_group gridDim blockDim warpsize vals cols rows Nb x rhs bs b out
  = while_lt Nb (residual_blocked_row vals cols rows x rhs bs warpsize) Nb
             (gridDim / warpsize) (blockDim * b / warpsize) out.
Proof.
  intros HW Hshape. unfold residual_blocked_group.
  assert (blockDim mod warpsize = 0 ∧ 1 ≤ blockDim / warpsize) as [Hmod Hk].
  { destruct Hshape as [-> | (Hmod & HB & _)].
    - by rewrite Nat.Div0.mod_same, Nat.div_same by lia.
    - split; [done|]. pose proof (Nat.div_mod_eq blockDim warpsize).
      destruct (blockDim / warpsize); lia. }
  rewrite decide_True by done.
  set (fw := blockDim * b / warpsize).
  replace (blockDim / warpsize) with (1 + (blockDim / warpsize - 1)) by lia.
  rewrite seq_app, filter_app, (filter_none _ (seq (0 + 1) _)); last first.
  { intros w Hw%elem_of_seq. destruct Hshape as [-> | (_ & _ & HNb)]; [|lia].
    rewrite Nat.div_same in Hw; lia. }
  rewrite app_nil_r. cbn [seq]. rewrite filter_singleton by done.
  destruct (decide (fw + 0 < Nb)) as [Hin|Hout].
  - by rewrite Nat.add_0_r.
  - rewrite while_lt_done; [done|lia].
Qed.

Lemma residual_blocked_k_spec (gridDim blockDim warpsize : nat) (vals : vec)
    (cols rows : list nat) (x rhs out : vec) (Nb : nat) :
  warpsize = 32 ∨ warpsize = 64 → warpsize ≤ gridDim →
  blockDim = warpsize ∨ (blockDim mod warpsize = 0 ∧ 0 < blockDim ∧ Nb ≤ 1) →
  bsr_matrix 3 Nb vals cols rows →
  length x = Nb * 3 → length rhs = Nb * 3 → length out = Nb * 3 →
  ∃ out', residual_blocked_k gridDim blockDim warpsize vals cols rows Nb x rhs out 3
          = Some out' ∧
    length out' = length out ∧
    ∀ i, i < Nb * 3 → out' !! i = Some (rhs.[i] - bsr_product 3 vals cols rows x i)%Z.
Proof.
  intros HW HG Hshape Hm Hx Hrhs Hout. unfold residual_blocked_k.
  assert (0 < warpsize) as Hpos by (destruct HW; lia).
  rewrite (foldM_ext _ (λ b, while_lt Nb (residual_blocked_row vals cols rows x rhs 3 warpsize)
                               Nb (gridDim / warpsize) (blockDim * b / warpsize)))
    by (intros; by apply residual_blocked_group_alone).
  assert (0 < gridDim / warpsize ∧ gridDim / warpsize ≤ gridDim) as [Hs1 Hs2].
  { pose proof (Nat.div_mod_eq gridDim warpsize).
    pose proof (Nat.mod_upper_bound gridDim warpsize). split; nia. }
  rewrite (groups_trace Nb (gridDim / warpsize) (λ b, blockDim * b / warpsize)) by done.
  set (T := seq 0 gridDim ≫= _).
  assert (∀ r, r ∈ T ↔ r < Nb) as HT.
  { intros r. unfold T. rewrite list_elem_of_bind. split.
    - intros (b & (Hr & _)%elem_of_stride_trace & _); [done|lia..].
    - intros Hr. destruct Hshape as [-> | (_ & _ & HNb)].
      + exists (r mod (gridDim / warpsize)).
        pose proof (Nat.mod_upper_bound r (gridDim / warpsize)).
        split; [|apply elem_of_seq; lia].
        rewrite Nat.mul_comm, Nat.div_mul by lia.
        apply elem_of_stride_trace; [lia..|]. split; [done|].
        exists (r / (gridDim / warpsize)).
        pose proof (Nat.div_mod_eq r (gridDim / warpsize)). lia.
      + exists 0. split; [|apply elem_of_seq; lia].
        rewrite Nat.mul_0_r, Nat.Div0.div_0_l.
        apply elem_of_stride_trace; [lia..|]. split; [done|]. exists 0. lia. }
  set (v := λ k, (rhs.[k] - bsr_product 3 vals cols rows x k)%Z).
  rewrite (foldM_ext _ (λ row, foldM (λ k m, store m (id k) (v k))
                                     ((λ lane, row * 3 + lane) <$> seq 0 3))); last first.
  { intros row m Hr%HT. by apply residual_blocked_row_stores_width with (Nb := Nb). }
  rewrite foldM_bind.
  set (slots := T ≫= _).
  assert (∀ k, k ∈ slots ↔ k < Nb * 3) as HS.
  { intros k. unfold slots. rewrite list_elem_of_bind. split.
    - intros (row & (lane & -> & Hl%elem_of_seq)%list_elem_of_fmap & Hr%HT). lia.
    - intros Hk. exists (k / 3). pose proof (Nat.div_mod_eq k 3).
      pose proof (Nat.mod_upper_bound k 3). split.
      + apply list_elem_of_fmap. exists (k mod 3). split; [lia|]. apply elem_of_seq. lia.
      + apply HT. lia. }
  destruct (foldM_store id v slots out) as (out' & -> & Hlen & Hupd & _).
  { intros k Hk%HS. unfold id. lia. }
  { intros i j _ _ Hij. unfold id in Hij. by subst. }
  exists out'. split_and!; [done|done|]. intros i Hi. apply (Hupd i), HS, Hi.
Qed.

(** C3, as stated, fails three times.  For block size 2: on the one-block
    matrix with the 2x2 identity block, [x = [1,1]] and [rhs = [0,0]] the
    kernel, on a warp of 64 lanes, writes [-2, 0], where [rhs - A x] is
    [-1, -1].  For the width 32 under the launcher's work-groups of 64
    threads: with two block rows the two warps of work-group 0 both enter
    the loop and store to the same [tmp[lane]]; and whatever [tmp] holds
    when they write back, the two block rows are not both right.  For fewer
    work-groups than the width: [num_warps_in_grid] is 0 and the loop of
    warp 0 does not end, whatever the fuel. *)
Lemma residual_blocked_counterexample :
  (bsr_matrix 2 1 [1; 0; 0; 1]%Z [0] [0; 1] ∧
   residual_blocked_k 64 64 64 [1; 0; 0; 1]%Z [0] [0; 1] 1 [1; 1]%Z [0; 0]%Z [0; 0]%Z 2
   = Some [-2; 0]%Z ∧
   bsr_product 2 [1; 0; 0; 1]%Z [0] [0; 1] [1; 1]%Z 0 = 1%Z ∧
   bsr_product 2 [1; 0; 0; 1]%Z [0] [0; 1] [1; 1]%Z 1 = 1%Z ∧
   zip_with Z.sub [0; 0]%Z [1; 1]%Z = [-1; -1]%Z ∧
   [-2; 0]%Z ≠ [-1; -1]%Z) ∧
  (let vals := [1; 0; 0; 0; 1; 0; 0; 0; 1; 1; 0; 0; 0; 1; 0; 0; 0; 1]%Z in
   bsr_matrix 3 2 vals [0; 1] [0; 1; 2] ∧
   residual_blocked_k 64 64 32 vals [0; 1] [0; 1; 2] 2 [1; 2; 3; 4; 5; 6]%Z
     [0; 0; 0; 0; 0; 0]%Z [0; 0; 0; 0; 0; 0]%Z 3 = None ∧
   ∀ tmp out1 out2,
     write_block_row [0; 0; 0; 0; 0; 0]%Z tmp 3 32 0 [0; 0; 0; 0; 0; 0]%Z = Some out1 →
     write_block_row [0; 0; 0; 0; 0; 0]%Z tmp 3 32 1 out1 = Some out2 →
     ¬ ∀ i, i < 6 →
         out2 !! i = Some (Z.sub ([0; 0; 0; 0; 0; 0]%Z.[i])
                                 (bsr_product 3 vals [0; 1] [0; 1; 2] [1; 2; 3; 4; 5; 6]%Z i))) ∧
  (let vals := [1; 0; 0; 0; 1; 0; 0; 0; 1]%Z in
   bsr_matrix 3 1 vals [0] [0; 1] ∧
   (∀ fuel, while_lt fuel (residual_blocked_row vals [0] [0; 1] [1; 2; 3]%Z [0; 0; 0]%Z 3 64)
              1 (2 / 64) 0 [0; 0; 0]%Z = None) ∧
   residual_blocked_k 2 64 64 vals [0] [0; 1] 1 [1; 2; 3]%Z [0; 0; 0]%Z [0; 0; 0]%Z 3 = None).
Proof.
  assert (bsr_matrix 3 1 [1; 0; 0; 0; 1; 0; 0; 0; 1]%Z [0] [0; 1]) as Hm.
  { split; [done| |done|done|by repeat constructor].
    intros [|[|?]] [|[|?]] a b; simpl; intros; simplify_eq; lia. }
  split; [|split].
  - split_and!; try by vm_compute.
    split; [done| |done|done|by repeat constructor].
    intros [|[|?]] [|[|?]] a b; simpl; intros; simplify_eq; lia.
  - intros vals. split_and!; [|by vm_compute|apply shared_tmp_write_back].
    split; [done| |done|done|by repeat constructor].
    intros [|[|[|?]]] [|[|[|?]]] a b; simpl; intros; simplify_eq; lia.
  - intros vals. split_and!; [done| |by vm_compute].
    intros fuel. change (2 / 64) with 0.
    apply (while_lt_stuck (λ m, length m = 3)); [lia| |done].
    intros m Hlen.
    rewrite (residual_blocked_row_stores_width 64 _ _ _ _ _ 1) by (done || lia || by right).
    set (v := λ k, Z.sub ([0; 0; 0]%Z.[k]) (bsr_product 3 vals [0] [0; 1] [1; 2; 3]%Z k)).
    destruct (foldM_store id v ((λ lane, 0 * 3 + lane) <$> seq 0 3) m)
      as (m' & Hm' & Hlen' & _).
    { intros k (lane & -> & Hl%elem_of_seq)%list_elem_of_fmap. unfold id. lia. }
    { intros i j _ _ Hij. unfold id in Hij. by subst. }
    exists m'. split; [exact Hm'|lia].
Qed.

(** C3, amended. For block size 3, the block size whose lane layout the
    reduction (first offset 3) is written for, and for both widths 32 and
    64, the kernel launched with at least [warpsize] work-groups of one warp
    each leaves [rhs[i] - (A x)[i]] in every scalar row [i]; launched with
    work-groups of several whole warps, as the launcher's 64 threads are on
    the width 32, it does so when the matrix has at most one block row.
    With the last offset that the kernel picks for the width, the reduction
    folds every lane of the warp into the lanes 0, 1 and 2. *)
Theorem residual_blocked_spec (gridDim blockDim warpsize : nat) (vals : vec)
    (cols rows : list nat) (x rhs out : vec) (Nb : nat) :
  warpsize = 32 ∨ warpsize = 64 → warpsize ≤ gridDim →
  blockDim = warpsize ∨ (blockDim mod warpsize = 0 ∧ 0 < blockDim ∧ Nb ≤ 1) →
  bsr_matrix 3 Nb vals cols rows →
  length x = Nb * 3 → length rhs = Nb * 3 → length out = Nb * 3 →
  (∃ out', residual_blocked_k gridDim blockDim warpsize vals cols rows Nb x rhs out 3
           = Some out' ∧
     length out' = length out ∧
     ∀ row r, row < Nb → r < 3 →
       out' !! (row * 3 + r) = Some (rhs.[row * 3 + r]
         - sum_range rows.[row] rows.[row + 1] (λ block,
             sum_range 0 3 (λ c, vals.[block * 3 * 3 + r * 3 + c] * x.[cols.[block] * 3 + c])))%Z) ∧
  (∀ tmp r, length tmp = warpsize → r < 3 →
     ∃ tmp', shift_reduce (offsetTarget warpsize) warpsize 3 tmp = Some tmp' ∧
       tmp'.[r] = sum_range 0 warpsize (λ lane, if lane mod 3 =? r then tmp.[lane] else 0%Z)).
Proof.
  intros HW HG Hshape Hm Hx Hrhs Hout.
  split; [|intros tmp r Hlen Hr; by apply shift_reduce_folds].
  destruct (residual_blocked_k_spec gridDim blockDim warpsize vals cols rows x rhs out Nb)
    as (out' & -> & Hlen & Hupd); [done..|].
  exists out'. split_and!; [done|done|]. intros row r Hrow Hr.
  rewrite Hupd by lia. unfold bsr_product, block_term.
  replace ((row * 3 + r) / 3) with row by (apply Nat.div_unique with r; lia).
  by replace ((row * 3 + r) mod 3) with r by (apply Nat.mod_unique with row; lia).
Qed.

Lemma residual_blocked_spec_witness :
  let vals := [1; 0; 0; 0; 1; 0; 0; 0; 1]%Z in
  let cols := [0] in
  let rows := [0; 1] in
  let x := [1; 2; 3]%Z in
  let rhs := [10; 10; 10]%Z in
  let reduces warpsize :=
    ∀ tmp r, length tmp = warpsize → r < 3 →
      ∃ tmp', shift_reduce (offsetTarget warpsize) warpsize 3 tmp = Some tmp' ∧
        tmp'.[r] = sum_range 0 warpsize (λ lane, if lane mod 3 =? r then tmp.[lane] else 0%Z) in
  let right (out' : vec) :=
    length out' = 3 ∧
    ∀ row r, row < 1 → r < 3 →
      out' !! (row * 3 + r) = Some (rhs.[row * 3 + r]
        - sum_range rows.[row] rows.[row + 1] (λ block,
            sum_range 0 3 (λ c, vals.[block * 3 * 3 + r * 3 + c] * x.[cols.[block] * 3 + c])))%Z in
  ((∃ out', residual_blocked_k 64 64 32 vals cols rows 1 x rhs [0; 0; 0]%Z 3 = Some out' ∧
            right out') ∧ reduces 32) ∧
  ((∃ out', residual_blocked_k 64 64 64 vals cols rows 1 x rhs [0; 0; 0]%Z 3 = Some out' ∧
            right out') ∧ reduces 64).
Proof.
  intros vals cols rows x rhs reduces right.
  assert (bsr_matrix 3 1 vals cols rows) as Hm.
  { split; [done| |done|done|by repeat constructor].
    intros [|[|?]] [|[|?]] a b; simpl; intros; simplify_eq; lia. }
  split.
  - apply (residual_blocked_spec 64 64 32 vals cols rows x rhs [0; 0; 0]%Z 1);
      [by left|lia|right; split_and!; [reflexivity|lia|lia]|exact Hm|reflexivity..].
  - apply (residual_blocked_spec 64 64 64 vals cols rows x rhs [0; 0; 0]%Z 1);
      [by right|lia|by left|exact Hm|reflexivity..].
Defined.

(** ** [residual] *)







(** * Further properties of the kernel suite *)

(** ** [HipKernels::init] *)

Lemma init_again (v : Z) (ctx : hip_context) :
  initialized ctx = true →
  init v ctx = {| verbosity := verbosity ctx; initialized := true;
                  debug_log := debug_log ctx ++ ["Warning HipKernels is already initialized"] |}.
Proof. intros Hi. unfold init. by rewrite Hi. Qed.

Lemma init_repeated (vs : list Z) (ctx : hip_context) :
  initialized ctx = true →
  foldl (λ c v', init v' c) ctx vs
  = {| verbosity := verbosity ctx; initialized := true;
       debug_log := debug_log ctx
                    ++ replicate (length vs) "Warning HipKernels is already initialized" |}.
Proof.
  revert ctx. induction vs as [|v' vs IH]; intros ctx Hi.
  - simpl. rewrite app_nil_r. destruct ctx; simpl in *. by subst.
  - cbn [foldl]. rewrite (init_again v' ctx Hi), IH by done. cbn.
    by rewrite <- app_assoc.
Qed.

(** X1. In a sequence of calls of [init] on a context that is not
    initialized, the first call decides: the context ends initialized, with
    the verbosity of the first call, and every later call only adds the
    warning to the debug log. *)
Theorem init_first_call_decides (ctx : hip_context) (v : Z) (vs : list Z) :
  initialized ctx = false →
  foldl (λ c v', init v' c) ctx (v :: vs)
  = {| verbosity := v; initialized := true;
       debug_log := debug_log ctx
                    ++ replicate (length vs) "Warning HipKernels is already initialized" |}.
Proof.
  intros Hi. cbn [foldl]. rewrite init_repeated; unfold init; rewrite Hi; done.
Qed.

Lemma init_first_call_decides_witness :
  foldl (λ c v', init v' c)
        {| verbosity := 0; initialized := false; debug_log := [] |} [4; 1; 7]%Z
  = {| verbosity := 4; initialized := true;
       debug_log := [] ++ replicate 2 "Warning HipKernels is already initialized" |}.
Proof.
  apply (init_first_call_decides
           {| verbosity := 0; initialized := false; debug_log := [] |} 4 [1; 7]%Z).
  reflexivity.
Defined.

(** ** Loops that have nothing to do *)






(** ** What the grid-stride kernels never touch *)




Lemma store_inv (a a' : vec) (i : nat) (v : Z) :
  store a i v = Some a' → i < length a ∧ a' = <[i := v]> a.
Proof. unfold store. case_decide; naive_solver. Qed.

Lemma store_same_outside (keep : nat → Prop) (m m' : vec) (i : nat) (v : Z) :
  ¬ keep i → store m i v = Some m' → same_outside keep m m'.
Proof.
  intros Hi (_ & ->)%store_inv. split; [by rewrite length_insert|].
  intros j Hj. apply list_lookup_insert_ne. by intros ->.
Qed.


Lemma vmul_body_frame (alpha : Z) (in1 in2 m m1 : vec) (idx : nat) :
  vmul_body alpha in1 in2 idx m = Some m1 → same_outside (λ i, i ≠ idx) m m1.
Proof.
  unfold vmul_body. intros H.
  destruct (in1 !! idx); [|done]. destruct (in2 !! idx); [|done].
  destruct (m !! idx); [|done]. simpl in H.
  eapply store_same_outside; [|done]. by intros [].
Qed.

Lemma prolongate_body_frame (in_ m m1 : vec) (cols : list nat) (row : nat) :
  prolongate_body in_ cols row m = Some m1 → same_outside (λ i, i ≠ row) m m1.
Proof.
  unfold prolongate_body. intros H.
  destruct (cols !! row) as [c|]; [|done]. simpl in H.
  destruct (in_ !! c); [|done]. destruct (m !! row); [|done]. simpl in H.
  eapply store_same_outside; [|done]. by intros [].
Qed.

Lemma restriction_body_frame (fine_y weights m m1 : vec) (row : nat) :
  restriction_body fine_y weights row m = Some m1 → same_outside (λ i, i ≠ row) m m1.
Proof.
  unfold restriction_body. intros H.
  destruct (foldM _ _ _) as [sum|]; [|done]. simpl in H.
  eapply store_same_outside; [|done]. by intros [].
Qed.






(** ** Arrays that are too short *)

(** X4. [HipKernels::vmul] does not check its length argument against the
    arrays: when [N] exceeds the length of [in1], [in2] or [out] the call
    reads or writes outside an array, which is undefined behaviour. *)
Theorem vmul_unchecked_length (alpha : Z) (in1 in2 out : vec) (N : nat) :
  length in1 < N ∨ length in2 < N ∨ length out < N →
  vmul true alpha in1 in2 out N = Undefined.
Proof.
  intros Hshort.
  destruct (decide (Z.of_nat N ≤ 2 ^ 25)%Z) as [HN|HN]; [|apply vmul_index_wraps; lia].
  rewrite vmul_launch by done.
  set (a := if decide (length in1 < N) then length in1
            else if decide (length in2 < N) then length in2 else length out).
  rewrite (foldM_fails (λ m, length m = length out) _ _ a); [done| |done| |].
  - intros b m0 m1 [Hl _]%vmul_body_frame Hm0. congruence.
  - apply elem_of_seq. unfold a. repeat case_decide; lia.
  - intros m0 Hm0. unfold vmul_body, a. repeat case_decide.
    + by rewrite (lookup_ge_None_2 in1).
    + rewrite (lookup_ge_None_2 in2) by done. by destruct (in1 !! _).
    + rewrite (lookup_ge_None_2 m0) by lia. destruct (in1 !! _); [|done].
      by destruct (in2 !! _).
Qed.

Lemma vmul_unchecked_length_witness :
  vmul true 1 [1; 1]%Z [1; 1; 1]%Z [0; 0; 0]%Z 3 = Undefined.
Proof. apply (vmul_unchecked_length 1 [1; 1]%Z [1; 1; 1]%Z [0; 0; 0]%Z 3). simpl. lia. Defined.

(** X5. [HipKernels::prolongate_vector] checks neither the lengths nor the
    column map: a column map or an output vector shorter than [N], or an
    entry of the first [N] of the map that is no index of the coarse vector,
    makes the call undefined. *)
Theorem prolongate_unchecked (in_ out : vec) (cols : list nat) (N : nat) :
  length cols < N ∨ length out < N ∨
    (∃ i c, i < N ∧ cols !! i = Some c ∧ length in_ ≤ c) →
  prolongate_vector true in_ out cols N = Undefined.
Proof.
  intros Hbad. unfold prolongate_vector, prolongate_vector_k.
  rewrite launch_seq by (try apply ceilDivision_covers; lia).
  assert (∃ a, a < N ∧ ∀ m0, length m0 = length out → prolongate_body in_ cols a m0 = None)
    as (a & Ha & Hfail).
  { destruct Hbad as [Hc|[Ho|(i & c & Hi & Hic & Hc)]].
    - exists (length cols). split; [done|]. intros m0 _. unfold prolongate_body.
      by rewrite (lookup_ge_None_2 cols).
    - exists (length out). split; [done|]. intros m0 Hm0. unfold prolongate_body.
      destruct (cols !! _) as [c|]; [|done]. simpl. destruct (in_ !! c); [|done]. simpl.
      by rewrite (lookup_ge_None_2 m0) by lia.
    - exists i. split; [done|]. intros m0 _. unfold prolongate_body. rewrite Hic. simpl.
      by rewrite (lookup_ge_None_2 in_). }
  rewrite (foldM_fails (λ m, length m = length out) _ _ a); [done| |done| |done].
  - intros b m0 m1 [Hl _]%prolongate_body_frame Hm0. congruence.
  - apply elem_of_seq. lia.
Qed.

Lemma prolongate_unchecked_witness :
  prolongate_vector true [1; 2]%Z [0; 0; 0]%Z [0; 2; 1] 3 = Undefined.
Proof.
  apply (prolongate_unchecked [1; 2]%Z [0; 0; 0]%Z [0; 2; 1] 3).
  right. right. exists 1, 2. simpl. split_and!; [lia|done|lia].
Defined.

(** X6. [HipKernels::full_to_pressure_restriction] reads three fine values
    and three weights per block row without checking the arrays: a fine
    vector or a weight vector with fewer than [3 * Nb] entries (that of a
    smaller block size, say), or a coarse vector with fewer than [Nb], makes
    the call undefined. *)
Theorem restriction_unchecked_length (fine_y weights coarse_y : vec) (Nb : nat) :
  length fine_y < 3 * Nb ∨ length weights < 3 * Nb ∨ length coarse_y < Nb →
  full_to_pressure_restriction true fine_y weights coarse_y Nb = Undefined.
Proof.
  intros Hshort. rewrite restriction_launch.
  assert (∃ a, a < Nb ∧
            ∀ m0, length m0 = length coarse_y → restriction_body fine_y weights a m0 = None)
    as (a & Ha & Hfail).
  { destruct Hshort as [Hf|[Hw|Hc]].
    - exists (length fine_y / 3). pose proof (Nat.div_mod_eq (length fine_y) 3).
      pose proof (Nat.mod_upper_bound (length fine_y) 3). split; [lia|].
      intros m0 _. unfold restriction_body, block_size. cbn [seq foldM].
      rewrite (lookup_ge_None_2 fine_y (3 * (length fine_y / 3) + 2)) by lia.
      repeat (match goal with |- context [@lookup nat Z vec _ ?i ?l] => destruct (l !! i) end;
              simpl; try done).
    - exists (length weights / 3). pose proof (Nat.div_mod_eq (length weights) 3).
      pose proof (Nat.mod_upper_bound (length weights) 3). split; [lia|].
      intros m0 _. unfold restriction_body, block_size. cbn [seq foldM].
      rewrite (lookup_ge_None_2 weights (3 * (length weights / 3) + 2)) by lia.
      repeat (match goal with |- context [@lookup nat Z vec _ ?i ?l] => destruct (l !! i) end;
              simpl; try done).
    - exists (length coarse_y). split; [done|]. intros m0 Hm0. unfold restriction_body.
      destruct (foldM _ _ _); [|done]. simpl. unfold store. by rewrite decide_False by lia. }
  rewrite (foldM_fails (λ m, length m = length coarse_y) _ _ a); [done| |done| |done].
  - intros b m0 m1 [Hl _]%restriction_body_frame Hm0. congruence.
  - apply elem_of_seq. lia.
Qed.

Lemma restriction_unchecked_length_witness :
  full_to_pressure_restriction true [1; 2; 3; 4]%Z [1; 1; 1; 1]%Z [0; 0]%Z 2 = Undefined.
Proof.
  apply (restriction_unchecked_length [1; 2; 3; 4]%Z [1; 1; 1; 1]%Z [0; 0]%Z 2). simpl. lia.
Defined.

(** ** The pressure offset of the injection *)



(** ** Kernels under other launch configurations *)

(** X12. The restriction kernel is right under every launch configuration:
    it overwrites [coarse_y[row]], so the rows that several threads claim
    still end with the weighted sum of their block.  Any positive
    numbers of work-groups and of threads give what the host function
    gives. *)
Theorem restriction_any_launch (gridDim blockDim : nat) (fine_y weights coarse_y : vec)
    (Nb : nat) :
  0 < gridDim → 0 < blockDim →
  3 * Nb ≤ length fine_y → 3 * Nb ≤ length weights → Nb ≤ length coarse_y →
  ∃ coarse',
    full_to_pressure_restriction_k gridDim blockDim fine_y weights coarse_y Nb = Some coarse' ∧
    full_to_pressure_restriction true fine_y weights coarse_y Nb = Done coarse' ∧
    ∀ row, row < Nb →
      coarse' !! row = Some (fine_y.[3 * row] * weights.[3 * row]
                             + fine_y.[3 * row + 1] * weights.[3 * row + 1]
                             + fine_y.[3 * row + 2] * weights.[3 * row + 2])%Z.
Proof.
  intros HG HB Hf Hw Hc. rewrite restriction_launch.
  destruct (restriction_fold fine_y weights coarse_y Nb) as (c0 & -> & Hl0 & Hu0 & Hs0);
    [done..|].
  unfold full_to_pressure_restriction_k. rewrite launch_claimed.
  set (v := λ row, (fine_y.[3 * row] * weights.[3 * row]
     + fine_y.[3 * row + 1] * weights.[3 * row + 1]
     + fine_y.[3 * row + 2] * weights.[3 * row + 2])%Z).
  rewrite (foldM_ext _ (λ row m, store m (id row) (v row))); last first.
  { intros row m Hrow%elem_of_claimed; [|done..].
    apply restriction_body_store; unfold id; lia. }
  destruct (foldM_store id v (claimed gridDim blockDim Nb) coarse_y)
    as (c1 & -> & Hl1 & Hu1 & Hs1).
  { intros row Hrow%elem_of_claimed; [|done..]. unfold id. lia. }
  { intros i j _ _ Hij. unfold id in Hij. by subst. }
  assert (c1 = c0) as ->.
  { apply list_eq. intros row. destruct (decide (row < Nb)) as [Hrow|Hrow].
    - rewrite (Hu0 row Hrow). apply (Hu1 row). by apply elem_of_claimed.
    - rewrite Hs0 by lia. apply Hs1. rewrite list_fmap_id, elem_of_claimed by done. lia. }
  exists c0. split_and!; [done|done|]. apply Hu0.
Qed.

Lemma restriction_any_launch_witness :
  ∃ coarse',
    full_to_pressure_restriction_k 1 64 [1; 2; 3; 4; 5; 6]%Z [1; 1; 1; 1; 1; 1]%Z [0; 0]%Z 2
    = Some coarse' ∧
    full_to_pressure_restriction true [1; 2; 3; 4; 5; 6]%Z [1; 1; 1; 1; 1; 1]%Z [0; 0]%Z 2
    = Done coarse' ∧
    ∀ row, row < 2 →
      coarse' !! row
      = Some ([1; 2; 3; 4; 5; 6]%Z.[3 * row] * [1; 1; 1; 1; 1; 1]%Z.[3 * row]
              + [1; 2; 3; 4; 5; 6]%Z.[3 * row + 1] * [1; 1; 1; 1; 1; 1]%Z.[3 * row + 1]
              + [1; 2; 3; 4; 5; 6]%Z.[3 * row + 2] * [1; 1; 1; 1; 1; 1]%Z.[3 * row + 2])%Z.
Proof.
  apply (restriction_any_launch 1 64 [1; 2; 3; 4; 5; 6]%Z [1; 1; 1; 1; 1; 1]%Z [0; 0]%Z 2);
    simpl; lia.
Defined.






